(** * Reconciliation, name resolution and credential lookup in ansible-netbox

    A shallow embedding of
    - [plugins/modules/allow_list.py] and [plugins/modules/clients.py]
      of the sbarbett.pihole collection (the reconcile-by-comparison loop),
    - [scripts/create_vikunja_task.py] (label resolution),
    - [scripts/hass_api_manager.py] (token lookup chain),
    - [mcp-servers/trac/server.py] and [scripts/create_trac_ticket.py]
      (ticket creation).

    Python dicts are association lists where insertion order matters
    (iteration in [map_groups_to_ids]) and stdpp [gmap]s where only lookup
    matters (the remote Pi-hole tables, keyed by address or client). *)

From stdpp Require Import base gmap strings list.
From Stdlib Require Import ZArith Ascii String.

Local Open Scope Z_scope.
Local Open Scope string_scope.

(* ------------------------------------------------------------------ *)
(** ** Python string helpers *)

Module PyStr.

(** [str.lower] restricted to ASCII: 'A'..'Z' are shifted by 32. *)
Definition lower_char (c : ascii) : ascii :=
  let n := nat_of_ascii c in
  if (65 <=? n)%nat && (n <=? 90)%nat then ascii_of_nat (n + 32) else c.

Fixpoint lower (s : string) : string :=
  match s with
  | EmptyString => EmptyString
  | String c s' => String (lower_char c) (lower s')
  end.

(** [sep.join(xs)] *)
Fixpoint join (sep : string) (xs : list string) : string :=
  match xs with
  | [] => EmptyString
  | [x] => x
  | x :: xs' => x ++ sep ++ join sep xs'
  end.

(** [needle in haystack] *)
Fixpoint contains (needle hay : string) : bool :=
  if String.prefix needle hay then true
  else match hay with
       | EmptyString => false
       | String _ hay' => contains needle hay'
       end.

End PyStr.

(* ------------------------------------------------------------------ *)
(** ** Python dicts built by comprehension, [{k(x): x for x in xs}] *)

Module PyDict.

(** [d[k] = v]: an existing key keeps its position, a new key is
    appended (dict insertion order). *)
Fixpoint dict_set {V} (k : string) (v : V) (d : list (string * V))
    : list (string * V) :=
  match d with
  | [] => [(k, v)]
  | (k', v') :: d' =>
      if String.eqb k k' then (k, v) :: d' else (k', v') :: dict_set k v d'
  end.

Definition dict_of {A} (key : A -> string) (xs : list A) : list (string * A) :=
  fold_left (fun d x => dict_set (key x) x d) xs [].

(** [d.get(k)] *)
Fixpoint dict_get {V} (k : string) (d : list (string * V)) : option V :=
  match d with
  | [] => None
  | (k', v) :: d' => if String.eqb k k' then Some v else dict_get k d'
  end.

End PyDict.

Import PyStr PyDict.

(* ------------------------------------------------------------------ *)
(** ** Pi-hole groups and [map_groups_to_ids]

    [map_groups_to_ids] is defined identically in allow_list.py and in
    clients.py; one definition serves both. *)

Module Groups.

(** A remote group as returned by [group_management.get_groups()]. *)
Record group := { g_name : string; g_id : Z }.

(** An element of the [groups] argument: allow_list's legacy
    [groups] has [elements='raw'], so ints pass through as IDs. *)
Inductive group_item := GroupId (z : Z) | GroupName (s : string).

(** [get_existing_groups]: [{group['name']: group for group in groups}]. *)
Definition get_existing_groups (gs : list group) : list (string * group) :=
  dict_of g_name gs.

(** The inner [for group_name, details in existing_groups.items()] loop. *)
Fixpoint find_group (item : string) (eg : list (string * group)) : option Z :=
  match eg with
  | [] => None
  | (group_name, details) :: eg' =>
      if String.eqb (lower group_name) (lower item) then Some (g_id details)
      else find_group item eg'
  end.

(** The outer loop, returning [(group_ids, missing_groups)]. *)
Fixpoint map_groups_loop (items : list group_item) (eg : list (string * group))
    : list Z * list string :=
  match items with
  | [] => ([], [])
  | GroupId z :: items' =>
      let '(ids, miss) := map_groups_loop items' eg in (z :: ids, miss)
  | GroupName s :: items' =>
      let '(ids, miss) := map_groups_loop items' eg in
      match find_group s eg with
      | Some id => (id :: ids, miss)
      | None => (ids, s :: miss)
      end
  end.

Definition warn_prefix : string :=
  "The following groups were not found and will be ignored: ".

(** [map_groups_to_ids module group_items existing_groups]: the returned
    IDs and the [module.warn] message, if one is issued. *)
Definition map_groups_to_ids (items : list group_item)
    (eg : list (string * group)) : list Z * option string :=
  let '(ids, miss) := map_groups_loop items eg in
  (ids, match miss with
        | [] => None
        | _ => Some (warn_prefix ++ join ", " miss)
        end).

End Groups.

(* ------------------------------------------------------------------ *)
(** ** Vikunja label resolution in [create_task] *)

Module Vikunja.

Record label := { l_title : string; l_id : Z }.

(** The [for label_name in labels] loop of [create_task];
    [create_label] is the server's answer to the [PUT /labels] call
    ([None] when it fails). *)
Fixpoint resolve_loop (label_map : list (string * label))
    (create_label : string -> option label) (names : list string) : list Z :=
  match names with
  | [] => []
  | label_name :: names' =>
      match dict_get (lower label_name) label_map with
      | Some existing => l_id existing :: resolve_loop label_map create_label names'
      | None =>
          match create_label label_name with
          | Some new_label => l_id new_label :: resolve_loop label_map create_label names'
          | None => resolve_loop label_map create_label names'
          end
      end
  end.

(** [label_map = {l['title'].lower(): l for l in existing_labels}] *)
Definition resolve_labels (existing_labels : list label)
    (create_label : string -> option label) (labels : list string) : list Z :=
  resolve_loop (dict_of (fun l => lower (l_title l)) existing_labels)
    create_label labels.

End Vikunja.

Import Groups Vikunja.

(* ------------------------------------------------------------------ *)
(** ** Field comparison shared by the two Pi-hole modules *)

Module Compare.

(** [set(a) != set(b)] on lists of group IDs, negated. *)
Definition set_eqb (l1 l2 : list Z) : bool :=
  forallb (fun x => existsb (Z.eqb x) l2) l1
  && forallb (fun x => existsb (Z.eqb x) l1) l2.

(** Python [==] on [str | None]. *)
Definition opt_str_eqb (a b : option string) : bool :=
  match a, b with
  | Some x, Some y => String.eqb x y
  | None, None => true
  | _, _ => false
  end.

End Compare.

Import Compare.

(** [state=dict(type='str', choices=['present', 'absent'])] *)
Inductive item_state := Present | Absent.

(* ------------------------------------------------------------------ *)
(** ** allow_list.py, [run_module] *)

Module AllowList.

(** One element of [lists] after Ansible has filled the suboption
    defaults ([comment=None], [groups=[]], [enabled=True]). *)
Record item := {
  address : string;
  state : item_state;
  comment : option string;
  groups : list group_item;
  enabled : bool
}.

(** An allow list as stored by Pi-hole ([get_list(...)['lists'][0]]). *)
Record entry := { e_comment : option string; e_groups : list Z; e_enabled : bool }.

(** The mutating calls of [client.list_management], with the arguments
    the module passes. *)
Inductive call :=
| AddList (a : string) (c : option string) (g : list Z) (en : bool)
| UpdateList (a : string) (c : option string) (g : list Z) (en : bool)
| DeleteList (a : string).

(** The Pi-hole side of a call on the allow lists (keyed by address).
    The pihole6api client is not part of this repository: stored fields
    take the values sent, and a comment sent as [None] is read as
    "leave the stored comment", the reading most favourable to a sparse
    patch. *)
Definition apply_call (r : gmap string entry) (c : call) : gmap string entry :=
  match c with
  | AddList a cm g en => <[a := {| e_comment := cm; e_groups := g; e_enabled := en |}]> r
  | UpdateList a cm g en =>
      alter (fun e => {| e_comment := match cm with Some _ => cm | None => e_comment e end;
                         e_groups := g; e_enabled := en |}) a r
  | DeleteList a => delete a r
  end.

Inductive action :=
| Added | Updated | Unchanged | MarkedForDeletion | Deleted | AbsentAlready.

(** An element of [processed_results]. *)
Inductive record := ItemRecord (a : string) (act : action) | GravityRecord.

(** The [needs_update] test. *)
Definition needs_update (e : entry) (comment : option string) (groups : list Z)
    (enabled : bool) : bool :=
  match comment with Some _ => negb (opt_str_eqb (e_comment e) comment) | None => false end
  || match groups with [] => false | _ => negb (set_eqb (e_groups e) groups) end
  || negb (Bool.eqb (e_enabled e) enabled).

(** Variables of the [for list_item in lists_param] loop. *)
Record loop_st := {
  remote : gmap string entry;
  lists_to_delete : list string;
  processed_results : list record;
  changed : bool;
  warnings : list string;
  calls : list call
}.

Definition warn (w : option string) (ws : list string) : list string :=
  match w with Some m => ws ++ [m] | None => ws end.

(** One iteration of the loop. *)
Definition step (eg : list (string * group)) (st : loop_st) (it : item) : loop_st :=
  let '(gids, w) := map_groups_to_ids (groups it) eg in
  let ws := warn w (warnings st) in
  let a := address it in
  match state it, remote st !! a with
  | Present, None =>
      let c := AddList a (comment it) gids (enabled it) in
      {| remote := apply_call (remote st) c; lists_to_delete := lists_to_delete st;
         processed_results := processed_results st ++ [ItemRecord a Added];
         changed := true; warnings := ws; calls := calls st ++ [c] |}
  | Present, Some e =>
      if needs_update e (comment it) gids (enabled it) then
        let c := UpdateList a (comment it) gids (enabled it) in
        {| remote := apply_call (remote st) c; lists_to_delete := lists_to_delete st;
           processed_results := processed_results st ++ [ItemRecord a Updated];
           changed := true; warnings := ws; calls := calls st ++ [c] |}
      else
        {| remote := remote st; lists_to_delete := lists_to_delete st;
           processed_results := processed_results st ++ [ItemRecord a Unchanged];
           changed := changed st; warnings := ws; calls := calls st |}
  | Absent, Some _ =>
      {| remote := remote st; lists_to_delete := lists_to_delete st ++ [a];
         processed_results := processed_results st ++ [ItemRecord a MarkedForDeletion];
         changed := true; warnings := ws; calls := calls st |}
  | Absent, None =>
      {| remote := remote st; lists_to_delete := lists_to_delete st;
         processed_results := processed_results st ++ [ItemRecord a AbsentAlready];
         changed := changed st; warnings := ws; calls := calls st |}
  end.

Definition loop (eg : list (string * group)) (st : loop_st) (its : list item) : loop_st :=
  fold_left (step eg) its st.

(** [item['action'] = 'deleted'] for the marked items of one address. *)
Definition mark_deleted (a : string) (rs : list record) : list record :=
  map (fun r => match r with
                | ItemRecord a' MarkedForDeletion =>
                    if String.eqb a' a then ItemRecord a' Deleted else r
                | _ => r
                end) rs.

(** [for address in lists_to_delete: ...] *)
Definition delete_one (st : loop_st) (a : string) : loop_st :=
  {| remote := apply_call (remote st) (DeleteList a); lists_to_delete := lists_to_delete st;
     processed_results := mark_deleted a (processed_results st);
     changed := changed st; warnings := warnings st; calls := calls st ++ [DeleteList a] |}.

Definition process_deletions (st : loop_st) : loop_st :=
  fold_left delete_one (lists_to_delete st) st.

(** [if update_gravity: ...]; [gravity_response] is [run_gravity()]'s answer. *)
Definition gravity (update_gravity : bool) (gravity_response : string) (st : loop_st)
    : loop_st :=
  if update_gravity then
    {| remote := remote st; lists_to_delete := lists_to_delete st;
       processed_results := processed_results st ++ [GravityRecord];
       changed := changed st || contains "List has been updated" gravity_response;
       warnings := warnings st; calls := calls st |}
  else st.

Definition init (r : gmap string entry) : loop_st :=
  {| remote := r; lists_to_delete := []; processed_results := [];
     changed := false; warnings := []; calls := [] |}.

(** [run_module]: [check_mode] exits before anything is fetched with
    [changed=False]; otherwise the loop, the deletions and the gravity
    run.  [existing_groups] is [get_existing_groups(client)]. *)
Definition run_module (check_mode update_gravity : bool) (gravity_response : string)
    (existing_groups : list group) (r : gmap string entry) (lists_param : list item)
    : loop_st :=
  if check_mode then init r
  else gravity update_gravity gravity_response
         (process_deletions (loop (get_existing_groups existing_groups) (init r) lists_param)).

End AllowList.

(* ------------------------------------------------------------------ *)
(** ** clients.py, [main] *)

Module Clients.

(** One element of [clients] after Ansible's defaults
    ([comment=None], [groups=[]]); [groups] has [elements='str']. *)
Record citem := {
  name : string;
  cstate : item_state;
  ccomment : option string;
  cgroups : list group_item
}.

(** A client as stored by Pi-hole, keyed by its [client] field. *)
Record centry := { ce_comment : option string; ce_groups : list Z }.

(** The calls of [client.client_management] made through
    [create_client], [update_client], [delete_client] and
    [batch_delete_clients] ([groups or []] is the resolved ID list). *)
Inductive ccall :=
| AddClient (n : string) (c : option string) (g : list Z)
| UpdateClient (n : string) (c : option string) (g : list Z)
| DeleteClient (n : string)
| BatchDeleteClients (ns : list string).

(** The Pi-hole side; [None] is an [{'error': ...}] response.  As for
    allow lists, a comment sent as [None] leaves the stored one. *)
Definition apply_ccall (r : gmap string centry) (c : ccall) : option (gmap string centry) :=
  match c with
  | AddClient n cm g =>
      match r !! n with
      | Some _ => None
      | None => Some (<[n := {| ce_comment := cm; ce_groups := g |}]> r)
      end
  | UpdateClient n cm g =>
      match r !! n with
      | Some e => Some (<[n := {| ce_comment := match cm with Some _ => cm | None => ce_comment e end;
                                  ce_groups := g |}]> r)
      | None => None
      end
  | DeleteClient n =>
      match r !! n with Some _ => Some (delete n r) | None => None end
  | BatchDeleteClients ns => Some (fold_left (fun r' n => delete n r') ns r)
  end.

Inductive cresult_state := Created | Updated | Unchanged | Deleted.

(** An element of [result['clients']] (its [name] and [state]). *)
Record cresult := { r_name : string; r_state : cresult_state }.

Record cacc := {
  cremote : gmap string centry;
  cresults : list cresult;
  cchanged : bool;
  cwarnings : list string;
  ccalls : list ccall
}.

(** Outcome of [main]: [module.fail_json(msg=...)] or [module.exit_json]. *)
Inductive coutcome :=
| CFail (msg : string) (acc : cacc)
| COk (acc : cacc).

(** The update test of the [else] branch. *)
Definition cneeds_update (e : centry) (comment : option string) (group_ids : list Z) : bool :=
  match comment with Some _ => negb (opt_str_eqb (ce_comment e) comment) | None => false end
  || negb (set_eqb (ce_groups e) group_ids).

(** Issue a call unless in check mode. *)
Definition issue (check_mode : bool) (acc : cacc) (c : ccall) : option cacc :=
  if check_mode then Some acc
  else match apply_ccall (cremote acc) c with
       | Some r' => Some {| cremote := r'; cresults := cresults acc; cchanged := cchanged acc;
                            cwarnings := cwarnings acc; ccalls := ccalls acc ++ [c] |}
       | None => None
       end.

Definition emit (acc : cacc) (res : cresult) (ch : bool) (ws : list string) : cacc :=
  {| cremote := cremote acc; cresults := cresults acc ++ [res]; cchanged := ch;
     cwarnings := ws; ccalls := ccalls acc |}.

(** The [for client_data in clients] loop; [existing_clients] is the
    table as fetched once before the loop. *)
Fixpoint cloop (check_mode : bool) (existing_clients : gmap string centry)
    (eg : list (string * group)) (its : list citem) (acc : cacc) : coutcome :=
  match its with
  | [] => COk acc
  | it :: its' =>
      let '(group_ids, w) := map_groups_to_ids (cgroups it) eg in
      let ws := AllowList.warn w (cwarnings acc) in
      let n := name it in
      match cstate it with
      | Absent =>
          cloop check_mode existing_clients eg its'
            {| cremote := cremote acc; cresults := cresults acc; cchanged := cchanged acc;
               cwarnings := ws; ccalls := ccalls acc |}
      | Present =>
          match existing_clients !! n with
          | None =>
              match issue check_mode acc (AddClient n (ccomment it) group_ids) with
              | None => CFail ("Failed to create client " ++ n) acc
              | Some acc' =>
                  cloop check_mode existing_clients eg its'
                    (emit acc' {| r_name := n; r_state := Created |} true ws)
              end
          | Some e =>
              if cneeds_update e (ccomment it) group_ids then
                match issue check_mode acc (UpdateClient n (ccomment it) group_ids) with
                | None => CFail ("Failed to update client " ++ n) acc
                | Some acc' =>
                    cloop check_mode existing_clients eg its'
                      (emit acc' {| r_name := n; r_state := Updated |} true ws)
                end
              else
                cloop check_mode existing_clients eg its'
                  (emit acc {| r_name := n; r_state := Unchanged |} (cchanged acc) ws)
          end
      end
  end.

(** [clients_to_delete], computed before the loop. *)
Definition clients_to_delete (existing_clients : gmap string centry) (its : list citem)
    : list string :=
  map name (List.filter (fun it => match cstate it with
                              | Absent => bool_decide (is_Some (existing_clients !! name it))
                              | Present => false
                              end) its).

(** The [if clients_to_delete:] block. *)
Definition cdelete (check_mode : bool) (to_delete : list string) (acc : cacc) : coutcome :=
  match to_delete with
  | [] => COk acc
  | _ =>
      let acc1 := {| cremote := cremote acc;
                     cresults := cresults acc ++ map (fun n => {| r_name := n; r_state := Deleted |}) to_delete;
                     cchanged := true; cwarnings := cwarnings acc; ccalls := ccalls acc |} in
      let c := match to_delete with
               | [n] => DeleteClient n
               | _ => BatchDeleteClients to_delete
               end in
      match issue check_mode acc1 c with
      | Some acc2 => COk acc2
      | None => CFail "Failed to delete clients" acc1
      end
  end.

(** [main]; [r] is the remote client table, which is what
    [get_existing_clients] returns re-keyed on [client]. *)
Definition main (check_mode : bool) (existing_groups : list group)
    (r : gmap string centry) (clients : list citem) : coutcome :=
  let init := {| cremote := r; cresults := []; cchanged := false; cwarnings := []; ccalls := [] |} in
  match cloop check_mode r (get_existing_groups existing_groups) clients init with
  | CFail m acc => CFail m acc
  | COk acc => cdelete check_mode (clients_to_delete r clients) acc
  end.

End Clients.

(* ------------------------------------------------------------------ *)
(** ** More Python string operations (Trac and Home Assistant scripts) *)

Module PyStr2.

(** Python truthiness of a [str | None]. *)
Definition truthy (o : option string) : bool :=
  match o with Some s => negb (String.eqb s EmptyString) | None => false end.

(** [c.isspace()] for an ASCII [c]: space, [\t\n\v\f\r] and the
    separators 0x1c..0x1f. *)
Definition is_space (c : ascii) : bool :=
  let n := nat_of_ascii c in
  (n =? 32)%nat || ((9 <=? n)%nat && (n <=? 13)%nat) || ((28 <=? n)%nat && (n <=? 31)%nat).

(** [s.replace(old, new)] for a single-character [old]. *)
Fixpoint replace_char (old new : ascii) (s : string) : string :=
  match s with
  | EmptyString => EmptyString
  | String c s' => String (if Ascii.eqb c old then new else c) (replace_char old new s')
  end.

(** [s.replace(old, new)]: left to right, non-overlapping. *)
Fixpoint replace_go (fuel : nat) (old new s : string) : string :=
  match fuel with
  | O => s
  | S fuel' =>
      match s with
      | EmptyString => EmptyString
      | String c s' =>
          if String.prefix old s
          then new ++ replace_go fuel' old new (substring (String.length old) (String.length s) s)
          else String c (replace_go fuel' old new s')
      end
  end.

Definition replace (old new s : string) : string :=
  match old with
  | EmptyString => s
  | _ => replace_go (String.length s) old new s
  end.

(** [s.split()]: maximal runs of non-whitespace, [cur] is the word
    being read. *)
Fixpoint split_go (cur : string) (s : string) : list string :=
  match s with
  | EmptyString => match cur with EmptyString => [] | _ => [cur] end
  | String c s' =>
      if is_space c
      then match cur with
           | EmptyString => split_go EmptyString s'
           | _ => cur :: split_go EmptyString s'
           end
      else split_go (cur ++ String c EmptyString) s'
  end.

Definition split_ws (s : string) : list string := split_go EmptyString s.

Fixpoint lstrip_by (p : ascii -> bool) (s : string) : string :=
  match s with
  | EmptyString => EmptyString
  | String c s' => if p c then lstrip_by p s' else s
  end.

Fixpoint rev_str (s : string) : string :=
  match s with
  | EmptyString => EmptyString
  | String c s' => rev_str s' ++ String c EmptyString
  end.

(** [s.strip(chars)] *)
Definition strip_by (p : ascii -> bool) (s : string) : string :=
  rev_str (lstrip_by p (rev_str (lstrip_by p s))).

(** [s.strip()] *)
Definition strip (s : string) : string := strip_by is_space s.

(** [s.split(":", 1)[1]] for an [s] known to contain [":"]. *)
Fixpoint after_colon (s : string) : string :=
  match s with
  | EmptyString => EmptyString
  | String c s' => if Ascii.eqb c ":" then s' else after_colon s'
  end.

(** [str(z)] for an int: decimal digits, [Pos.size_nat p] (the bit
    length) bounding the number of digits. *)
Fixpoint pos_digits (fuel : nat) (n : N) (acc : string) : string :=
  match fuel with
  | O => acc
  | S fuel' =>
      let acc' := String (ascii_of_N (48 + N.modulo n 10)) acc in
      if (N.div n 10 =? 0)%N then acc' else pos_digits fuel' (N.div n 10) acc'
  end.

Definition z_to_str (z : Z) : string :=
  match z with
  | Z0 => "0"
  | Zpos p => pos_digits (Pos.size_nat p) (Npos p) EmptyString
  | Zneg p => "-" ++ pos_digits (Pos.size_nat p) (Npos p) EmptyString
  end.

(** [s.split(sep, 1)[1]] for an [s] known to contain [sep]. *)
Fixpoint after_first (sep : ascii) (s : string) : string :=
  match s with
  | EmptyString => EmptyString
  | String c s' => if Ascii.eqb c sep then s' else after_first sep s'
  end.

(** [s.split(sep)] for a one-character [sep]; [cur] is the piece being read. *)
Fixpoint split_char_go (sep : ascii) (cur s : string) : list string :=
  match s with
  | EmptyString => [cur]
  | String c s' =>
      if Ascii.eqb c sep then cur :: split_char_go sep EmptyString s'
      else split_char_go sep (cur ++ String c EmptyString) s'
  end.

Definition split_char (sep : ascii) (s : string) : list string := split_char_go sep EmptyString s.

(** [s.startswith("*")] and [s[1:]] *)
Definition starts_with (c0 : ascii) (s : string) : bool :=
  match s with String c _ => Ascii.eqb c c0 | EmptyString => false end.

Definition drop1 (s : string) : string :=
  match s with String _ s' => s' | EmptyString => EmptyString end.

End PyStr2.

Import PyStr2.

(* ------------------------------------------------------------------ *)
(** ** Trac: the MCP server's tools and the create_trac_ticket.py CLI *)

Module Trac.

Local Infix "+++" := app (right associativity, at level 60).

(** XML-RPC calls issued through the server proxy. *)
Inductive xcall :=
| ComponentGetAll
| PriorityGetAll
| TicketCreate (summary description : string) (attrs : list (string * string)) (notify : bool)
| TicketUpdate (id : Z) (comment : string) (attrs : list (string * string))
    (notify : bool) (author : string).

Definition is_mutation (c : xcall) : bool :=
  match c with TicketCreate _ _ _ _ | TicketUpdate _ _ _ _ _ => true | _ => false end.

(** What the Trac instance answers: the valid components and
    priorities, and the id a [ticket.create] returns (as rendered). *)
Record trac := { valid_components : list string; valid_priorities : list string;
                 created_id : string }.

Definition mem (x : string) (xs : list string) : bool := existsb (String.eqb x) xs.

(** [' '.join(keywords.replace(',', ' ').split())] *)
Definition normalize_keywords (k : string) : string :=
  join " " (split_ws (replace_char "," " " k)).

Definition invalid_component_msg (component : string) (valid : list string) : string :=
  "Error: Invalid component '" ++ component ++ "'. Valid components are: " ++ join ", " valid.

Definition invalid_priority_msg (priority : string) (valid : list string) : string :=
  "Error: Invalid priority '" ++ priority ++ "'. Valid priorities are: " ++ join ", " valid.

(** server.py [create_ticket]: the returned text and the calls made. *)
Definition create_ticket (t : trac) (summary description component type priority keywords : string)
    : string * list xcall :=
  let keywords := normalize_keywords keywords in
  if negb (mem component (valid_components t)) then
    (invalid_component_msg component (valid_components t), [ComponentGetAll])
  else if negb (mem priority (valid_priorities t)) then
    (invalid_priority_msg priority (valid_priorities t), [ComponentGetAll; PriorityGetAll])
  else
    let attributes := [("type", type); ("priority", priority); ("keywords", keywords);
                       ("component", component); ("cc", "will")] in
    ("Successfully created ticket #" ++ created_id t ++ ".",
     [ComponentGetAll; PriorityGetAll; TicketCreate summary description attributes true]).

(** server.py [update_ticket]; [Optional[str]] arguments are [option string]. *)
Definition update_ticket (t : trac) (ticket_id : Z) (comment : string)
    (component keywords status resolution : option string) (author : string)
    (action priority : option string) : string * list xcall :=
  let attrs0 := match keywords with
                | Some k => if truthy keywords then [("keywords", normalize_keywords k)] else []
                | None => [] end in
  let comp_check :=
    match component with
    | Some c =>
        if truthy component then
          if mem c (valid_components t) then inr (attrs0 +++ [("component", c)], [ComponentGetAll])
          else inl (invalid_component_msg c (valid_components t), [ComponentGetAll])
        else inr (attrs0, [])
    | None => inr (attrs0, [])
    end in
  match comp_check with
  | inl err => err
  | inr (attrs1, calls1) =>
      let prio_check :=
        match priority with
        | Some p =>
            if truthy priority then
              if mem p (valid_priorities t) then inr (attrs1 +++ [("priority", p)], calls1 +++ [PriorityGetAll])
              else inl (invalid_priority_msg p (valid_priorities t), calls1 +++ [PriorityGetAll])
            else inr (attrs1, calls1)
        | None => inr (attrs1, calls1)
        end in
      match prio_check with
      | inl err => err
      | inr (attrs2, calls2) =>
          let attrs3 := match status with
                        | Some s => if truthy status then attrs2 +++ [("status", s)] else attrs2
                        | None => attrs2 end in
          let attrs4 := match resolution with
                        | Some r => if truthy resolution then attrs3 +++ [("resolution", r)] else attrs3
                        | None => attrs3 end in
          let attrs5 :=
            match action with
            | Some a =>
                if truthy action then
                  attrs4 +++ [("action", a)] +++
                  (match resolution with
                   | Some r => if String.eqb a "resolve" && truthy resolution
                               then [("action_resolve_resolve_as", r)] else []
                   | None => [] end)
                else if opt_str_eqb status (Some "closed") && negb (truthy resolution)
                then attrs4 +++ [("resolution", "fixed")] else attrs4
            | None =>
                if opt_str_eqb status (Some "closed") && negb (truthy resolution)
                then attrs4 +++ [("resolution", "fixed")] else attrs4
            end in
          ("Successfully updated ticket #" ++ z_to_str ticket_id ++ ".",
           calls2 +++ [TicketUpdate ticket_id comment attrs5 true author])
      end
  end.

(** The parsed arguments of create_trac_ticket.py (argparse defaults
    [component='SysAdmin'], [type='task'], [priority='major']). *)
Record cli_args := {
  a_summary : string; a_description : string; a_component : string; a_keywords : string;
  a_type : string; a_priority : string; a_milestone : string; a_owner : string; a_cc : string
}.

(** create_trac_ticket.py [main]: the calls made through
    [xmlrpc.client.ServerProxy(TRAC_URL)]. *)
Definition cli_main (args : cli_args) : list xcall :=
  let processed_description :=
    replace "&#10;" (String "010" EmptyString)
      (replace "\n" (String "010" EmptyString) (a_description args)) in
  let processed_keywords := replace_char "," " " (a_keywords args) in
  let attributes := [("component", a_component args); ("keywords", processed_keywords);
                     ("type", a_type args); ("priority", a_priority args);
                     ("milestone", a_milestone args); ("owner", a_owner args); ("cc", a_cc args)] in
  [TicketCreate (a_summary args) processed_description attributes true].

End Trac.

(* ------------------------------------------------------------------ *)
(** ** hass_api_manager.py: [get_headers] and the calls that use it *)

Module Hass.

(** What [get_headers] can observe and change outside the process.
    [tmp_token_file] is [tmp/hass_token.txt] (contents and mode) when it
    exists and can be read; [vault_view] is the stdout of
    [ansible-vault view vault.yml] as lines, [None] when vault.yml is
    missing or cannot be decrypted; [tmp_writable] says whether
    [makedirs]/[open]/[write]/[chmod] on the cache file succeed. *)
Record fs := {
  tmp_token_file : option (string * Z);
  vault_view : option (list string);
  tmp_writable : bool
}.

(** [get_token_from_tmp] *)
Definition get_token_from_tmp (f : fs) : option string :=
  match tmp_token_file f with
  | Some (contents, _) => Some (strip contents)
  | None => None
  end.

Definition vault_key : string := "hass_gemini_api_key:".

(** [get_token_from_vault]: the first line mentioning the key, the text
    after its first colon, stripped of whitespace, then of single quotes,
    then of double quotes. *)
Definition get_token_from_vault (f : fs) : option string :=
  match vault_view f with
  | None => None
  | Some lines =>
      match List.find (contains vault_key) lines with
      | Some line =>
          Some (strip_by (fun c => Ascii.eqb c (ascii_of_nat 34))
                 (strip_by (fun c => Ascii.eqb c "'") (strip (after_colon line))))
      | None => None
      end
  end.

Definition owner_rw : Z := 384. (* 0o600 *)

Definition missing_token_msg : list string :=
  ["Error: HASS_TOKEN environment variable is not set and could not be retrieved from vault.yml.";
   EmptyString;
   "To resolve this, you can:"].

(** Result of [get_headers]: the bearer token, or [sys.exit(1)] after
    printing the help text; with the file system afterwards. *)
Inductive hresult :=
| Headers (token : string) (f : fs)
| ExitCode (code : Z) (printed : list string) (f : fs).

(** [get_headers], with [HASS_TOKEN] starting as [os.getenv("HASS_TOKEN")]. *)
Definition get_headers (hass_token_env : option string) (f : fs) : hresult :=
  let t1 := if truthy hass_token_env then hass_token_env else get_token_from_tmp f in
  let '(t2, f2) :=
    if truthy t1 then (t1, f)
    else
      let tv := get_token_from_vault f in
      match tv with
      | Some tok =>
          if truthy tv && tmp_writable f
          then (tv, {| tmp_token_file := Some (tok, owner_rw); vault_view := vault_view f;
                       tmp_writable := tmp_writable f |})
          else (tv, f)
      | None => (tv, f)
      end in
  match t2 with
  | Some tok => if truthy t2 then Headers tok f2 else ExitCode 1 missing_token_msg f2
  | None => ExitCode 1 missing_token_msg f2
  end.

(** Observable events of one command. *)
Inductive event :=
| Print (s : string)
| HttpGet (url : string) (authorization : string)
| HttpPost (url : string) (authorization : string)
| Exit (code : Z).

(** [requests.get(url, headers=get_headers(), ...)]: the headers are
    computed before the request is sent; the response is not modelled. *)
Definition request (mk : string -> event) (hass_token_env : option string) (f : fs)
    : list event * fs :=
  match get_headers hass_token_env f with
  | Headers tok f' => ([mk ("Bearer " ++ tok)], f')
  | ExitCode c printed f' => (app (map Print printed) [Exit c], f')
  end.

(** [check_api_status] *)
Definition check_api_status (hass_url : string) (hass_token_env : option string) (f : fs)
    : list event * fs :=
  let url := hass_url ++ "/api/" in
  let '(evs, f') := request (HttpGet url) hass_token_env f in
  (Print ("Checking API status at " ++ url ++ "...") :: evs, f').

(** [get_state] *)
Definition get_state (hass_url entity_id : string) (hass_token_env : option string) (f : fs)
    : list event * fs :=
  request (HttpGet (hass_url ++ "/api/states/" ++ entity_id)) hass_token_env f.

(** [call_service]; the printed data is abbreviated to its domain and service. *)
Definition call_service (hass_url domain service : string) (hass_token_env : option string)
    (f : fs) : list event * fs :=
  let url := hass_url ++ "/api/services/" ++ domain ++ "/" ++ service in
  let '(evs, f') := request (HttpPost url) hass_token_env f in
  (Print ("Calling service " ++ domain ++ "." ++ service) :: evs, f').

Definition is_network (e : event) : bool :=
  match e with HttpGet _ _ | HttpPost _ _ => true | _ => false end.

(** Reference reading of the lookup order: the first source that yields
    a non-empty token. *)
Fixpoint first_truthy (l : list (option string)) : option string :=
  match l with
  | [] => None
  | o :: l' => if truthy o then o else first_truthy l'
  end.

End Hass.

(* ------------------------------------------------------------------ *)
(** ** server.py: [get_trac_password] and [get_proxy]; the URL of the
    CLI scripts *)

Module TracAuth.

Definition export_key : string := "export TRAC_PASSWORD=".

(** [get_trac_password]: [env] is [os.getenv("TRAC_PASSWORD")],
    [bashrc] the lines of [~/.bashrc] as [for line in f] yields them
    (with their newline), [None] when the file is missing or cannot be
    read. [line.split("=", 1)] always has two parts here, since the line
    contains [export_key]. *)
Definition get_trac_password (env : option string) (bashrc : option (list string))
    : option string :=
  if truthy env then env
  else match bashrc with
       | None => None
       | Some lines =>
           match List.find (contains export_key) lines with
           | Some line =>
               Some (strip_by (fun c => Ascii.eqb c "'")
                       (strip_by (fun c => Ascii.eqb c (ascii_of_nat 34))
                          (strip (after_first "=" line))))
           | None => None
           end
       end.

(** The characters [urllib.parse.quote] never encodes:
    letters, digits and [_.-~]. *)
Definition is_unreserved (c : ascii) : bool :=
  let n := nat_of_ascii c in
  ((48 <=? n)%nat && (n <=? 57)%nat) || ((65 <=? n)%nat && (n <=? 90)%nat)
  || ((97 <=? n)%nat && (n <=? 122)%nat)
  || (n =? 95)%nat || (n =? 46)%nat || (n =? 45)%nat || (n =? 126)%nat.

(** An upper-case hexadecimal digit. *)
Definition hex_digit (n : nat) : ascii :=
  ascii_of_nat (if (n <? 10)%nat then 48 + n else 55 + n)%nat.

Definition quote_char (c : ascii) : string :=
  if is_unreserved c then String c EmptyString
  else let n := nat_of_ascii c in
       String "%" (String (hex_digit (n / 16)) (String (hex_digit (n mod 16)) EmptyString)).

(** [quote(s, safe='')] on the UTF-8 bytes of [s], one [ascii] per byte. *)
Fixpoint quote (s : string) : string :=
  match s with
  | EmptyString => EmptyString
  | String c s' => quote_char c ++ quote s'
  end.

(** [s.replace(old, new, 1)] *)
Fixpoint replace1 (old new s : string) : string :=
  match s with
  | EmptyString => match old with EmptyString => new | _ => EmptyString end
  | String c s' =>
      if String.prefix old s then new ++ substring (String.length old) (String.length s) s
      else String c (replace1 old new s')
  end.

Definition TRAC_URL : string := "http://trac.home.arpa/login/xmlrpc".

(** [get_proxy]: the URL given to [ServerProxy], [None] for the
    [ValueError] raised when [TRAC_PASSWORD] is not set. *)
Definition get_proxy (trac_user : string) (trac_password : option string) : option string :=
  match trac_password with
  | Some pw =>
      if truthy trac_password then
        let encoded_password := quote pw in
        Some (replace1 "http://" ("http://" ++ trac_user ++ ":" ++ encoded_password ++ "@") TRAC_URL)
      else None
  | None => None
  end.

(** The calls of a run, sent in order, when [fault c] is the text of the
    exception call [c] raises ([None]: it answers): the first failing
    call, with the calls sent up to and including it. *)
Fixpoint first_fault (fault : Trac.xcall -> option string) (cs : list Trac.xcall)
    : option (string * list Trac.xcall) :=
  match cs with
  | [] => None
  | c :: cs' =>
      match fault c with
      | Some m => Some (m, [c])
      | None =>
          match first_fault fault cs' with
          | Some (m, sent) => Some (m, c :: sent)
          | None => None
          end
      end
  end.

(** server.py [update_ticket] with its [try]/[except Exception]:
    [get_proxy()] raises [ValueError("TRAC_PASSWORD is not set")], and an
    exception of any XML-RPC call ends the run with
    [Error updating ticket #ID: ...]; [Trac.update_ticket] is the body of
    the [try] block when every call answers. *)
Definition update_ticket_tool (trac_user : string) (trac_password : option string)
    (fault : Trac.xcall -> option string) (t : Trac.trac) (ticket_id : Z) (comment : string)
    (component keywords status resolution : option string) (author : string)
    (action priority : option string) : string * list Trac.xcall :=
  let err := fun m => "Error updating ticket #" ++ z_to_str ticket_id ++ ": " ++ m in
  match get_proxy trac_user trac_password with
  | None => (err "TRAC_PASSWORD is not set", [])
  | Some _ =>
      let '(msg, cs) :=
        Trac.update_ticket t ticket_id comment component keywords status resolution author action priority in
      match first_fault fault cs with
      | Some (m, sent) => (err m, sent)
      | None => (msg, cs)
      end
  end.

(** The [TRAC_URL] of create_trac_ticket.py and update_trac_ticket.py:
    the password is put in as it is. *)
Definition cli_trac_url (user password host path : string) : string :=
  "http://" ++ user ++ ":" ++ password ++ "@" ++ host ++ path.

(** [print(f"Connecting to Trac server at {TRAC_URL.split('@')[1]}...")];
    [None] for the [IndexError] when there is no second piece. *)
Definition connect_msg (trac_url : string) : option string :=
  match nth_error (split_char "@" trac_url) 1 with
  | Some h => Some ("Connecting to Trac server at " ++ h ++ "...")
  | None => None
  end.

End TracAuth.

(* ------------------------------------------------------------------ *)
(** ** create_vikunja_task.py: [create_task] and [main] *)

Module VikunjaCli.

Import Vikunja.

(** The observable events: prints, the three kinds of HTTP request
    (with the bearer token sent) and [sys.exit]. *)
Inductive vevent :=
| VPrint (s : string)
| VGetLabels (url token : string)
| VPutLabel (url token title : string)
| VPutTask (url token title description : string) (is_favorite : bool)
    (labels : option (list Z))
| VExit (code : Z).

(** The [for label_name in labels] loop with its requests:
    [label_map] is not updated by a label it creates. The warnings that
    [create_label] prints on a failure are not modelled. *)
Fixpoint resolve_loop_ev (host token : string) (label_map : list (string * label))
    (create_label : string -> option label) (names : list string) : list vevent * list Z :=
  match names with
  | [] => ([], [])
  | label_name :: names' =>
      let '(evs, ids) := resolve_loop_ev host token label_map create_label names' in
      match dict_get (lower label_name) label_map with
      | Some existing => (evs, l_id existing :: ids)
      | None =>
          (VPrint ("(Creating new label '" ++ label_name ++ "')...")
             :: VPutLabel (host ++ "/api/v1/labels") token label_name :: evs,
           match create_label label_name with
           | Some new_label => l_id new_label :: ids
           | None => ids
           end)
      end
  end.

Definition missing_token_msg : string :=
  "Error: VIKUNJA_API_TOKEN environment variable not set and --token not provided.".

(** [create_task]: [token_env] is [os.getenv("VIKUNJA_API_TOKEN")],
    [existing_labels] what [get_all_labels] returns ([[]] when it fails),
    [create_label] the answer to a label [PUT], [task_ok] whether the task
    [PUT] answers 200 or 201. The prints after the task [PUT], which show
    the server's answer, are not modelled. *)
Definition create_task (title description : string) (project_id : Z) (is_favorite : bool)
    (host : string) (token_arg token_env : option string) (labels : list string)
    (existing_labels : list label) (create_label : string -> option label) (task_ok : bool)
    : list vevent :=
  let token := if truthy token_arg then token_arg else token_env in
  match token with
  | Some tok =>
      if truthy token then
        let '(evs1, resolved_labels) :=
          match labels with
          | [] => ([], [])
          | _ =>
              let label_map := dict_of (fun l => lower (l_title l)) existing_labels in
              let '(evs, ids) := resolve_loop_ev host tok label_map create_label labels in
              (VPrint "Resolving labels..." :: VGetLabels (host ++ "/api/v1/labels") tok
                 :: app evs [VPrint "Done."], ids)
          end in
        app evs1
          (VPutTask (host ++ "/api/v1/projects/" ++ z_to_str project_id ++ "/tasks") tok
             title description is_favorite
             (match resolved_labels with [] => None | _ => Some resolved_labels end)
           :: (if task_ok then [] else [VExit 1]))
      else [VPrint missing_token_msg; VExit 1]
  | None => [VPrint missing_token_msg; VExit 1]
  end.

(** The title parsing of [main]: the [*label] words and the clean title. *)
Definition parse_title (title : string) : list string * string :=
  let words := split_ws title in
  (map drop1 (List.filter (starts_with "*") words),
   join " " (List.filter (fun w => negb (starts_with "*" w)) words)).

End VikunjaCli.

(* ------------------------------------------------------------------ *)
(** ** hass_api_manager.py: the command dispatch of [__main__] *)

Module HassCli.

Import Hass.

(** [get_all_states] *)
Definition get_all_states (hass_url : string) (hass_token_env : option string) (f : fs)
    : list event * fs :=
  request (HttpGet (hass_url ++ "/api/states")) hass_token_env f.

Definition usage : list string :=
  ["Usage: ./hass_api_manager.py <command> [args]"; "Commands:";
   "  status              - Check API status";
   "  states              - List all states (summary)";
   "  state <entity_id>   - Get full state of an entity";
   "  on <entity_id>      - Turn on a light/switch";
   "  off <entity_id>     - Turn off a light/switch";
   "  call <domain> <service> <json_data> - Generic service call"].

(** [__main__] with [args = sys.argv[1:]]; [json_ok] says whether
    [json.loads] accepts a string. What a command prints from the
    response of its request is not modelled. *)
Definition main (hass_url : string) (args : list string) (json_ok : string -> bool)
    (hass_token_env : option string) (f : fs) : list event * fs :=
  match args with
  | [] => (app (map Print usage) [Exit 1], f)
  | command :: rest =>
      if String.eqb command "status" then check_api_status hass_url hass_token_env f
      else if String.eqb command "states" then get_all_states hass_url hass_token_env f
      else if String.eqb command "state" then
        match rest with
        | entity_id :: _ => get_state hass_url entity_id hass_token_env f
        | [] => ([Print "Usage: ./hass_api_manager.py state <entity_id>"; Exit 1], f)
        end
      else if String.eqb command "on" then
        match rest with
        | _ :: _ => call_service hass_url "homeassistant" "turn_on" hass_token_env f
        | [] => ([Print "Usage: ./hass_api_manager.py on <entity_id>"; Exit 1], f)
        end
      else if String.eqb command "off" then
        match rest with
        | _ :: _ => call_service hass_url "homeassistant" "turn_off" hass_token_env f
        | [] => ([Print "Usage: ./hass_api_manager.py off <entity_id>"; Exit 1], f)
        end
      else if String.eqb command "call" then
        match rest with
        | domain :: service :: data :: _ =>
            if json_ok data then call_service hass_url domain service hass_token_env f
            else ([Print "Error: Invalid JSON data"; Exit 1], f)
        | _ => ([Print "Usage: ./hass_api_manager.py call <domain> <service> <json_data>"; Exit 1], f)
        end
      else if String.eqb command "dump" then get_all_states hass_url hass_token_env f
      else ([Print ("Unknown command: " ++ command)], f)
  end.

End HassCli.

(* ================================================================== *)
(** * Properties *)

Import AllowList.

(** The two halves of [map_groups_to_ids]: the IDs that resolve, and the
    names that do not. *)
Definition resolve_item (eg : list (string * group)) (x : group_item) : option Z :=
  match x with GroupId z => Some z | GroupName s => find_group s eg end.

Definition resolved_ids (items : list group_item) (eg : list (string * group)) : list Z :=
  flat_map (fun x => match resolve_item eg x with Some z => [z] | None => [] end) items.

Definition unresolved (items : list group_item) (eg : list (string * group)) : list string :=
  flat_map (fun x => match x with
                     | GroupName s => match find_group s eg with Some _ => [] | None => [s] end
                     | GroupId _ => []
                     end) items.

(** Which result records report a change (CREATE, UPDATE or DELETE). *)
Definition is_mutating_record (r : record) : bool :=
  match r with
  | ItemRecord _ (Added | Updated | MarkedForDeletion | Deleted) => true
  | _ => false
  end.

Definition cmutating (r : Clients.cresult) : bool :=
  match Clients.r_state r with Clients.Unchanged => false | _ => true end.

(** An optional Trac field passes server.py's check: not given, empty,
    or among the valid values. *)
Definition valid_opt (o : option string) (vs : list string) : bool :=
  match o with
  | Some x => if truthy o then Trac.mem x vs else true
  | None => true
  end.

(** The events of one hass_api_manager.py run: at most one HTTP
    request, and a run that exits does so with status 1 and without any
    request. *)
Definition events_ok (evs : list Hass.event) : Prop :=
  Nat.le (List.length (List.filter Hass.is_network evs)) 1 /\
  (forall c, In (Hass.Exit c) evs -> c = 1 /\ forallb (fun e => negb (Hass.is_network e)) evs = true).

(** Every character of a string satisfies [p]. *)
Fixpoint str_forall (p : ascii -> bool) (s : string) : bool :=
  match s with
  | EmptyString => true
  | String c s' => p c && str_forall p s'
  end.

(** Classifying the events of create_vikunja_task.py. *)
Definition put_label_titles (evs : list VikunjaCli.vevent) : list string :=
  flat_map (fun e => match e with VikunjaCli.VPutLabel _ _ t => [t] | _ => [] end) evs.

Definition is_get_labels (e : VikunjaCli.vevent) : bool :=
  match e with VikunjaCli.VGetLabels _ _ => true | _ => false end.

Definition is_task_put_or_exit (e : VikunjaCli.vevent) : bool :=
  match e with VikunjaCli.VPutTask _ _ _ _ _ _ | VikunjaCli.VExit _ => true | _ => false end.

Definition is_vhttp (e : VikunjaCli.vevent) : bool :=
  match e with VikunjaCli.VPrint _ | VikunjaCli.VExit _ => false | _ => true end.

(** ** Lemmas on the comparisons *)

Lemma existsb_Zeqb_In (x : Z) (l : list Z) : existsb (Z.eqb x) l = true <-> In x l.
Proof.
  rewrite existsb_exists. split.
  - intros [y [Hy E]]. apply Z.eqb_eq in E. subst. exact Hy.
  - intros H. exists x. split; [exact H | apply Z.eqb_refl].
Qed.

Lemma set_eqb_refl (l : list Z) : set_eqb l l = true.
Proof.
  unfold set_eqb. apply andb_true_intro. split;
  apply forallb_forall; intros x Hx; apply existsb_Zeqb_In; exact Hx.
Qed.

Lemma forallb_same_members (e g1 g2 : list Z) :
  (forall x, In x g1 <-> In x g2) ->
  forallb (fun x => existsb (Z.eqb x) g1) e = forallb (fun x => existsb (Z.eqb x) g2) e
  /\ forallb (fun x => existsb (Z.eqb x) e) g1 = forallb (fun x => existsb (Z.eqb x) e) g2.
Proof.
  intros H. split; apply Bool.eq_true_iff_eq; rewrite !forallb_forall.
  - split; intros A x Hx; specialize (A x Hx); apply existsb_Zeqb_In;
      apply existsb_Zeqb_In in A; apply H; exact A || (apply H in A; exact A).
  - split; intros A x Hx; apply A; apply H; exact Hx.
Qed.

Lemma set_eqb_same_members (e g1 g2 : list Z) :
  (forall x, In x g1 <-> In x g2) -> set_eqb e g1 = set_eqb e g2.
Proof.
  intros H. unfold set_eqb. destruct (forallb_same_members e g1 g2 H) as [A B].
  rewrite A, B. reflexivity.
Qed.

Lemma nil_same_members (g1 g2 : list Z) :
  (forall x, In x g1 <-> In x g2) -> (g1 = [] <-> g2 = []).
Proof.
  intros H. destruct g1 as [|a g1], g2 as [|b g2]; split; intros E; try reflexivity; try discriminate.
  - exfalso. apply (proj2 (H b)). left. reflexivity.
  - exfalso. apply (proj1 (H a)). left. reflexivity.
Qed.

(** ** Lemmas on [map_groups_to_ids] *)

Lemma map_groups_loop_split (items : list group_item) (eg : list (string * group)) :
  map_groups_loop items eg = (resolved_ids items eg, unresolved items eg).
Proof.
  induction items as [|x items IH]; [reflexivity |].
  destruct x as [z | s]; simpl; rewrite IH; [reflexivity |].
  destruct (find_group s eg); reflexivity.
Qed.

Lemma map_groups_to_ids_eq (items : list group_item) (eg : list (string * group)) :
  map_groups_to_ids items eg =
  (resolved_ids items eg,
   match unresolved items eg with
   | [] => None
   | miss => Some (warn_prefix ++ join ", " miss)
   end).
Proof.
  unfold map_groups_to_ids. rewrite map_groups_loop_split.
  destruct (unresolved items eg); reflexivity.
Qed.

Lemma resolved_ids_In (items : list group_item) (eg : list (string * group)) (z : Z) :
  In z (resolved_ids items eg) <-> exists x, In x items /\ resolve_item eg x = Some z.
Proof.
  unfold resolved_ids. rewrite in_flat_map. split.
  - intros [x [Hx Hz]]. exists x. split; [exact Hx |].
    destruct (resolve_item eg x) as [y|]; simpl in Hz; [| contradiction].
    destruct Hz as [E | []]. subst. reflexivity.
  - intros [x [Hx Hz]]. exists x. split; [exact Hx |]. rewrite Hz. left. reflexivity.
Qed.

Lemma resolved_ids_same_members (g1 g2 : list group_item) (eg : list (string * group)) :
  (forall x, In x g1 <-> In x g2) ->
  forall z, In z (resolved_ids g1 eg) <-> In z (resolved_ids g2 eg).
Proof.
  intros H z. rewrite !resolved_ids_In. split; intros [x [Hx Hz]]; exists x;
  split; try exact Hz; apply H; exact Hx.
Qed.

Lemma find_group_none (s : string) (eg : list (string * group)) :
  find_group s eg = None -> forall k v, In (k, v) eg -> lower k <> lower s.
Proof.
  induction eg as [|[k0 v0] eg IH]; simpl; intros H k v Hin; [contradiction |].
  destruct (String.eqb (lower k0) (lower s)) eqn:E; [discriminate |].
  destruct Hin as [Eq | Hin].
  - injection Eq as <- <-. apply String.eqb_neq. exact E.
  - exact (IH H k v Hin).
Qed.

Lemma needs_update_same_members (e : entry) (c : option string) (g1 g2 : list Z) (en : bool) :
  (forall x, In x g1 <-> In x g2) -> needs_update e c g1 en = needs_update e c g2 en.
Proof.
  intros H. unfold needs_update. rewrite (set_eqb_same_members (e_groups e) g1 g2 H).
  destruct g1 as [|a g1], g2 as [|b g2]; try reflexivity; exfalso;
    [apply (proj2 (H b)) | apply (proj1 (H a))]; left; reflexivity.
Qed.

Lemma cneeds_update_same_members (e : Clients.centry) (c : option string) (g1 g2 : list Z) :
  (forall x, In x g1 <-> In x g2) -> Clients.cneeds_update e c g1 = Clients.cneeds_update e c g2.
Proof.
  intros H. unfold Clients.cneeds_update.
  rewrite (set_eqb_same_members (Clients.ce_groups e) g1 g2 H). reflexivity.
Qed.

(** One iteration of the allow_list loop, case by case. *)
Lemma step_present_new (eg : list (string * group)) (st : loop_st) (it : item) :
  state it = Present -> remote st !! address it = None ->
  step eg st it =
  {| remote := <[address it := {| e_comment := comment it;
                                  e_groups := fst (map_groups_to_ids (groups it) eg);
                                  e_enabled := enabled it |}]> (remote st);
     lists_to_delete := lists_to_delete st;
     processed_results := processed_results st ++ [ItemRecord (address it) Added];
     changed := true;
     warnings := warn (snd (map_groups_to_ids (groups it) eg)) (warnings st);
     calls := calls st ++ [AddList (address it) (comment it)
                             (fst (map_groups_to_ids (groups it) eg)) (enabled it)] |}.
Proof.
  intros Hs Hr. unfold step. destruct (map_groups_to_ids (groups it) eg) as [gids w].
  rewrite Hs, Hr. reflexivity.
Qed.

Lemma step_present_update (eg : list (string * group)) (st : loop_st) (it : item) (e : entry) :
  state it = Present -> remote st !! address it = Some e ->
  needs_update e (comment it) (fst (map_groups_to_ids (groups it) eg)) (enabled it) = true ->
  step eg st it =
  {| remote := <[address it := {| e_comment := match comment it with
                                               | Some _ => comment it
                                               | None => e_comment e end;
                                  e_groups := fst (map_groups_to_ids (groups it) eg);
                                  e_enabled := enabled it |}]> (remote st);
     lists_to_delete := lists_to_delete st;
     processed_results := processed_results st ++ [ItemRecord (address it) Updated];
     changed := true;
     warnings := warn (snd (map_groups_to_ids (groups it) eg)) (warnings st);
     calls := calls st ++ [UpdateList (address it) (comment it)
                             (fst (map_groups_to_ids (groups it) eg)) (enabled it)] |}.
Proof.
  intros Hs Hr. unfold step. destruct (map_groups_to_ids (groups it) eg) as [gids w].
  simpl. intros Hn. rewrite Hs, Hr, Hn. simpl.
  f_equal. apply map_eq. intros k. rewrite lookup_alter, !lookup_insert.
  case_decide as E; [subst k; rewrite Hr; reflexivity | reflexivity].
Qed.


Lemma step_absent_missing (eg : list (string * group)) (st : loop_st) (it : item) :
  state it = Absent -> remote st !! address it = None ->
  step eg st it =
  {| remote := remote st; lists_to_delete := lists_to_delete st;
     processed_results := processed_results st ++ [ItemRecord (address it) AbsentAlready];
     changed := changed st;
     warnings := warn (snd (map_groups_to_ids (groups it) eg)) (warnings st);
     calls := calls st |}.
Proof.
  intros Hs Hr. unfold step. destruct (map_groups_to_ids (groups it) eg) as [gids w].
  rewrite Hs, Hr. reflexivity.
Qed.

(** Claim C5: group lists are compared as sets.  In both modules, two
    desired group lists with the same members (in any order, with any
    repetition) give the same UPDATE-versus-NOOP decision against an
    existing entry; this holds already for any two resolved ID lists with
    the same members. *)
Theorem groups_compared_as_sets :
  (forall (eg : list (string * group)) (gi1 gi2 : list group_item),
     (forall x, In x gi1 <-> In x gi2) ->
     (forall (e : entry) (c : option string) (en : bool),
        needs_update e c (fst (map_groups_to_ids gi1 eg)) en
        = needs_update e c (fst (map_groups_to_ids gi2 eg)) en) /\
     (forall (e : Clients.centry) (c : option string),
        Clients.cneeds_update e c (fst (map_groups_to_ids gi1 eg))
        = Clients.cneeds_update e c (fst (map_groups_to_ids gi2 eg)))) /\
  (forall g1 g2 : list Z, (forall x, In x g1 <-> In x g2) ->
     (forall (e : entry) (c : option string) (en : bool),
        needs_update e c g1 en = needs_update e c g2 en) /\
     (forall (e : Clients.centry) (c : option string),
        Clients.cneeds_update e c g1 = Clients.cneeds_update e c g2)).
Proof.
  split.
  - intros eg gi1 gi2 H.
    assert (HI : forall z, In z (fst (map_groups_to_ids gi1 eg)) <-> In z (fst (map_groups_to_ids gi2 eg))).
    { intros z. rewrite !map_groups_to_ids_eq. simpl. apply resolved_ids_same_members. exact H. }
    split; intros; [apply needs_update_same_members | apply cneeds_update_same_members]; exact HI.
  - intros g1 g2 H. split; intros;
      [apply needs_update_same_members | apply cneeds_update_same_members]; exact H.
Qed.

(** ** Lemmas on dicts built by comprehension *)

Lemma dict_set_In {V} (k : string) (v : V) (d : list (string * V)) k' v' :
  In (k', v') (dict_set k v d) -> (k', v') = (k, v) \/ In (k', v') d.
Proof.
  induction d as [|[k0 v0] d IH]; simpl.
  - intros [E | []]. left. symmetry. exact E.
  - destruct (String.eqb k k0) eqn:E.
    + intros [H | H]; [left; symmetry; exact H | right; right; exact H].
    + intros [H | H]; [right; left; exact H |].
      destruct (IH H) as [H' | H']; [left; exact H' | right; right; exact H'].
Qed.

Lemma dict_set_has_key {V} (k : string) (v : V) (d : list (string * V)) :
  In (k, v) (dict_set k v d).
Proof.
  induction d as [|[k0 v0] d IH]; simpl; [left; reflexivity |].
  destruct (String.eqb k k0); [left; reflexivity | right; exact IH].
Qed.

Lemma dict_set_keeps_key {V} (k : string) (v : V) (d : list (string * V)) k' v' :
  In (k', v') d -> exists v'', In (k', v'') (dict_set k v d).
Proof.
  induction d as [|[k0 v0] d IH]; simpl; [intros [] |].
  destruct (String.eqb k k0) eqn:E; intros [H | H].
  - injection H as <- <-. apply String.eqb_eq in E. subst. exists v. left. reflexivity.
  - exists v'. right. exact H.
  - exists v'. left. exact H.
  - destruct (IH H) as [v'' Hv]. exists v''. right. exact Hv.
Qed.

Lemma dict_of_go_sound {A} (key : A -> string) (P : string -> A -> Prop) (xs : list A) :
  forall d, (forall k v, In (k, v) d -> P k v) -> (forall x, In x xs -> P (key x) x) ->
  forall k v, In (k, v) (fold_left (fun d x => dict_set (key x) x d) xs d) -> P k v.
Proof.
  induction xs as [|x xs IH]; simpl; intros d Hd Hx.
  - exact Hd.
  - apply IH; [| intros y Hy; apply Hx; right; exact Hy].
    intros k v Hin. destruct (dict_set_In _ _ _ _ _ Hin) as [E | H].
    + injection E as -> ->. apply Hx. left. reflexivity.
    + exact (Hd k v H).
Qed.

Lemma dict_of_sound {A} (key : A -> string) (xs : list A) k v :
  In (k, v) (dict_of key xs) -> In v xs /\ k = key v.
Proof.
  apply (dict_of_go_sound key (fun k v => In v xs /\ k = key v) xs []).
  - intros k' v' [].
  - intros x Hx. split; [exact Hx | reflexivity].
Qed.

Lemma dict_of_go_complete {A} (key : A -> string) (xs : list A) :
  forall d k, ((exists v, In (k, v) d) \/ (exists x, In x xs /\ key x = k)) ->
  exists v, In (k, v) (fold_left (fun d x => dict_set (key x) x d) xs d).
Proof.
  induction xs as [|x xs IH]; simpl; intros d k H.
  - destruct H as [H | [x [[] _]]]. exact H.
  - apply IH. destruct H as [[v Hv] | [y [[E | Hy] Hk]]].
    + left. exact (dict_set_keeps_key _ _ _ _ _ Hv).
    + left. exists x. subst y k. apply dict_set_has_key.
    + right. exists y. split; assumption.
Qed.

Lemma dict_of_complete {A} (key : A -> string) (xs : list A) (x : A) :
  In x xs -> exists v, In (key x, v) (dict_of key xs).
Proof.
  intros Hx. apply dict_of_go_complete. right. exists x. split; [exact Hx | reflexivity].
Qed.

Lemma dict_get_complete {V} (k : string) (d : list (string * V)) (v : V) :
  In (k, v) d -> exists v', dict_get k d = Some v' /\ In (k, v') d.
Proof.
  induction d as [|[k0 v0] d IH]; simpl; [intros [] |].
  destruct (String.eqb k k0) eqn:E; intros H.
  - apply String.eqb_eq in E. subst. exists v0. split; [reflexivity | left; reflexivity].
  - destruct H as [H | H].
    + injection H as -> ->. rewrite String.eqb_refl in E. discriminate.
    + destruct (IH H) as [v' [Hg Hin]]. exists v'. split; [exact Hg | right; exact Hin].
Qed.

Lemma find_group_complete (s : string) (eg : list (string * group)) k v :
  In (k, v) eg -> lower k = lower s ->
  exists k' v', In (k', v') eg /\ lower k' = lower s /\ find_group s eg = Some (g_id v').
Proof.
  induction eg as [|[k0 v0] eg IH]; simpl; [intros [] |].
  destruct (String.eqb (lower k0) (lower s)) eqn:E; intros H Hl.
  - apply String.eqb_eq in E. exists k0, v0. split; [left; reflexivity | split; [exact E | reflexivity]].
  - destruct H as [H | H].
    + injection H as -> ->. rewrite Hl, String.eqb_refl in E. discriminate.
    + destruct (IH H Hl) as [k' [v' [Hin [Hk Hf]]]].
      exists k', v'. split; [right; exact Hin | split; assumption].
Qed.

(** Claim C6: group and label names resolve case-insensitively.  When a
    requested name equals the name of some remote Pi-hole group up to
    ASCII case, [map_groups_to_ids] returns the ID of a remote group
    whose name equals it up to case, with no warning; likewise Vikunja's
    [create_task] attaches the ID of an existing label whose title equals
    the requested label up to case. *)
Theorem name_resolution_case_insensitive :
  (forall (gs : list group) (s : string),
     (exists g, In g gs /\ lower (g_name g) = lower s) ->
     exists g', In g' gs /\ lower (g_name g') = lower s /\
       map_groups_to_ids [GroupName s] (get_existing_groups gs) = ([g_id g'], None)) /\
  (forall (existing_labels : list label) (create_label : string -> option label) (s : string),
     (exists l, In l existing_labels /\ lower (l_title l) = lower s) ->
     exists l', In l' existing_labels /\ lower (l_title l') = lower s /\
       resolve_labels existing_labels create_label [s] = [l_id l']).
Proof.
  split.
  - intros gs s [g [Hg Hl]].
    destruct (dict_of_complete g_name gs g Hg) as [v Hv].
    destruct (find_group_complete s (get_existing_groups gs) (g_name g) v Hv Hl)
      as [k' [v' [Hin [Hk Hf]]]].
    destruct (dict_of_sound g_name gs k' v' Hin) as [Hv' Ek]. subst k'.
    exists v'. split; [exact Hv' | split; [exact Hk |]].
    unfold map_groups_to_ids. simpl. rewrite Hf. reflexivity.
  - intros ls cl s [l [Hl Ht]].
    destruct (dict_of_complete (fun l => lower (l_title l)) ls l Hl) as [v Hv].
    rewrite Ht in Hv.
    destruct (dict_get_complete _ _ _ Hv) as [v' [Hg Hin]].
    destruct (dict_of_sound _ ls _ _ Hin) as [Hv' Ek].
    exists v'. split; [exact Hv' | split; [symmetry; exact Ek |]].
    unfold resolve_labels. simpl. rewrite Hg. reflexivity.
Qed.

(** One iteration of the clients loop (not in check mode), case by case. *)
Lemma cloop_present_new (ec : gmap string Clients.centry) (eg : list (string * group))
    (it : Clients.citem) (its : list Clients.citem) (acc : Clients.cacc) :
  Clients.cstate it = Present -> ec !! Clients.name it = None ->
  Clients.cremote acc !! Clients.name it = None ->
  Clients.cloop false ec eg (it :: its) acc =
  Clients.cloop false ec eg its
    {| Clients.cremote := <[Clients.name it := {| Clients.ce_comment := Clients.ccomment it;
                              Clients.ce_groups := fst (map_groups_to_ids (Clients.cgroups it) eg) |}]>
                            (Clients.cremote acc);
       Clients.cresults := Clients.cresults acc ++ [{| Clients.r_name := Clients.name it;
                                                       Clients.r_state := Clients.Created |}];
       Clients.cchanged := true;
       Clients.cwarnings := warn (snd (map_groups_to_ids (Clients.cgroups it) eg)) (Clients.cwarnings acc);
       Clients.ccalls := Clients.ccalls acc ++
         [Clients.AddClient (Clients.name it) (Clients.ccomment it)
            (fst (map_groups_to_ids (Clients.cgroups it) eg))] |}.
Proof.
  intros Hs He Hr. simpl. destruct (map_groups_to_ids (Clients.cgroups it) eg) as [gids w].
  rewrite Hs, He. unfold Clients.issue. simpl. rewrite Hr. reflexivity.
Qed.

Lemma cloop_present_update (ec : gmap string Clients.centry) (eg : list (string * group))
    (it : Clients.citem) (its : list Clients.citem) (acc : Clients.cacc) (e e' : Clients.centry) :
  Clients.cstate it = Present -> ec !! Clients.name it = Some e ->
  Clients.cneeds_update e (Clients.ccomment it) (fst (map_groups_to_ids (Clients.cgroups it) eg)) = true ->
  Clients.cremote acc !! Clients.name it = Some e' ->
  Clients.cloop false ec eg (it :: its) acc =
  Clients.cloop false ec eg its
    {| Clients.cremote := <[Clients.name it := {| Clients.ce_comment :=
                                                    match Clients.ccomment it with
                                                    | Some _ => Clients.ccomment it
                                                    | None => Clients.ce_comment e' end;
                              Clients.ce_groups := fst (map_groups_to_ids (Clients.cgroups it) eg) |}]>
                            (Clients.cremote acc);
       Clients.cresults := Clients.cresults acc ++ [{| Clients.r_name := Clients.name it;
                                                       Clients.r_state := Clients.Updated |}];
       Clients.cchanged := true;
       Clients.cwarnings := warn (snd (map_groups_to_ids (Clients.cgroups it) eg)) (Clients.cwarnings acc);
       Clients.ccalls := Clients.ccalls acc ++
         [Clients.UpdateClient (Clients.name it) (Clients.ccomment it)
            (fst (map_groups_to_ids (Clients.cgroups it) eg))] |}.
Proof.
  intros Hs He. simpl. destruct (map_groups_to_ids (Clients.cgroups it) eg) as [gids w].
  simpl. intros Hn Hr. rewrite Hs, He, Hn. unfold Clients.issue. simpl. rewrite Hr. reflexivity.
Qed.

Lemma cloop_present_keep (cm : bool) (ec : gmap string Clients.centry) (eg : list (string * group))
    (it : Clients.citem) (its : list Clients.citem) (acc : Clients.cacc) (e : Clients.centry) :
  Clients.cstate it = Present -> ec !! Clients.name it = Some e ->
  Clients.cneeds_update e (Clients.ccomment it) (fst (map_groups_to_ids (Clients.cgroups it) eg)) = false ->
  Clients.cloop cm ec eg (it :: its) acc =
  Clients.cloop cm ec eg its
    {| Clients.cremote := Clients.cremote acc;
       Clients.cresults := Clients.cresults acc ++ [{| Clients.r_name := Clients.name it;
                                                       Clients.r_state := Clients.Unchanged |}];
       Clients.cchanged := Clients.cchanged acc;
       Clients.cwarnings := warn (snd (map_groups_to_ids (Clients.cgroups it) eg)) (Clients.cwarnings acc);
       Clients.ccalls := Clients.ccalls acc |}.
Proof.
  intros Hs He. simpl. destruct (map_groups_to_ids (Clients.cgroups it) eg) as [gids w].
  simpl. intros Hn. rewrite Hs, He, Hn. reflexivity.
Qed.

(** Claim C7: names that resolve to no remote group are left out of the
    ID list and named in the single warning, which is only a warning:
    [map_groups_to_ids] returns exactly the IDs that resolve (in order)
    and warns with exactly the names that do not; in allow_list the
    create or update call of a present item carries exactly those IDs,
    and in clients the loop goes on with the create or update call
    carrying exactly those IDs. *)
Theorem unresolved_groups_dropped_with_warning :
  (forall (items : list group_item) (eg : list (string * group)),
     map_groups_to_ids items eg =
       (resolved_ids items eg,
        match unresolved items eg with
        | [] => None
        | miss => Some (warn_prefix ++ join ", " miss)
        end)) /\
  (forall (items : list group_item) (eg : list (string * group)) (s : string),
     In s (unresolved items eg) <->
     In (GroupName s) items /\ forall k v, In (k, v) eg -> lower k <> lower s) /\
  (forall (items : list group_item) (eg : list (string * group)) (z : Z),
     In z (resolved_ids items eg) <-> exists x, In x items /\ resolve_item eg x = Some z) /\
  (forall (eg : list (string * group)) (st : loop_st) (it : item),
     state it = Present -> remote st !! address it = None ->
     calls (step eg st it) =
       (calls st ++ [AddList (address it) (comment it) (resolved_ids (groups it) eg) (enabled it)])%list) /\
  (forall (eg : list (string * group)) (st : loop_st) (it : item) (e : entry),
     state it = Present -> remote st !! address it = Some e ->
     needs_update e (comment it) (resolved_ids (groups it) eg) (enabled it) = true ->
     calls (step eg st it) =
       (calls st ++ [UpdateList (address it) (comment it) (resolved_ids (groups it) eg) (enabled it)])%list) /\
  (forall (ec : gmap string Clients.centry) (eg : list (string * group)) (it : Clients.citem)
          (its : list Clients.citem) (acc : Clients.cacc),
     Clients.cstate it = Present -> ec !! Clients.name it = None ->
     Clients.cremote acc !! Clients.name it = None ->
     exists acc', Clients.cloop false ec eg (it :: its) acc = Clients.cloop false ec eg its acc' /\
       Clients.ccalls acc' = (Clients.ccalls acc ++
         [Clients.AddClient (Clients.name it) (Clients.ccomment it) (resolved_ids (Clients.cgroups it) eg)])%list) /\
  (forall (ec : gmap string Clients.centry) (eg : list (string * group)) (it : Clients.citem)
          (its : list Clients.citem) (acc : Clients.cacc) (e e' : Clients.centry),
     Clients.cstate it = Present -> ec !! Clients.name it = Some e ->
     Clients.cneeds_update e (Clients.ccomment it) (resolved_ids (Clients.cgroups it) eg) = true ->
     Clients.cremote acc !! Clients.name it = Some e' ->
     exists acc', Clients.cloop false ec eg (it :: its) acc = Clients.cloop false ec eg its acc' /\
       Clients.ccalls acc' = (Clients.ccalls acc ++
         [Clients.UpdateClient (Clients.name it) (Clients.ccomment it) (resolved_ids (Clients.cgroups it) eg)])%list).
Proof.
  assert (F : forall items eg, fst (map_groups_to_ids items eg) = resolved_ids items eg).
  { intros items eg. rewrite map_groups_to_ids_eq. reflexivity. }
  split; [exact map_groups_to_ids_eq |].
  split.
  { intros items eg s. unfold unresolved. rewrite in_flat_map. split.
    - intros [x [Hx Hs]]. destruct x as [z | s']; [contradiction |].
      destruct (find_group s' eg) eqn:Ef; [contradiction |].
      destruct Hs as [<- | []]. split; [exact Hx | exact (find_group_none s' eg Ef)].
    - intros [Hx Hn]. exists (GroupName s). split; [exact Hx |].
      destruct (find_group s eg) eqn:Ef; [| left; reflexivity].
      exfalso. clear Hx. induction eg as [|[k v] eg IH]; simpl in Ef; [discriminate |].
      destruct (String.eqb (lower k) (lower s)) eqn:E.
      + apply String.eqb_eq in E. exact (Hn k v (or_introl eq_refl) E).
      + apply IH; [intros k' v' Hin; apply (Hn k' v'); right; exact Hin | exact Ef]. }
  split; [exact resolved_ids_In |].
  split.
  { intros eg st it Hs Hr. rewrite (step_present_new eg st it Hs Hr). simpl. rewrite F. reflexivity. }
  split.
  { intros eg st it e Hs Hr Hn. rewrite <- F in Hn.
    rewrite (step_present_update eg st it e Hs Hr Hn). simpl. rewrite F. reflexivity. }
  split.
  { intros ec eg it its acc Hs He Hr. eexists. split.
    - exact (cloop_present_new ec eg it its acc Hs He Hr).
    - simpl. rewrite F. reflexivity. }
  { intros ec eg it its acc e e' Hs He Hn Hr. rewrite <- F in Hn. eexists. split.
    - exact (cloop_present_update ec eg it its acc e e' Hs He Hn Hr).
    - simpl. rewrite F. reflexivity. }
Qed.

(** ** The [changed] flag *)

Lemma step_changed_inv (eg : list (string * group)) (st : loop_st) (it : item) :
  changed st = existsb is_mutating_record (processed_results st) ->
  changed (step eg st it) = existsb is_mutating_record (processed_results (step eg st it)).
Proof.
  intros H. unfold step. destruct (map_groups_to_ids (groups it) eg) as [gids w].
  destruct (state it), (remote st !! address it) as [e|];
    try destruct (needs_update e (comment it) gids (enabled it));
    simpl; rewrite existsb_app; simpl; rewrite <- H;
    rewrite ?orb_true_r, ?orb_false_r; reflexivity.
Qed.

Lemma loop_changed_inv (eg : list (string * group)) (its : list item) :
  forall st, changed st = existsb is_mutating_record (processed_results st) ->
  changed (loop eg st its) = existsb is_mutating_record (processed_results (loop eg st its)).
Proof.
  unfold loop. induction its as [|it its IH]; simpl; intros st H; [exact H |].
  apply IH. apply step_changed_inv. exact H.
Qed.

Lemma mark_deleted_mutating (a : string) (rs : list record) :
  existsb is_mutating_record (mark_deleted a rs) = existsb is_mutating_record rs.
Proof.
  induction rs as [|r rs IH]; simpl; [reflexivity |]. rewrite IH.
  destruct r as [a' act|]; [| reflexivity].
  destruct act; try reflexivity. simpl. destruct (String.eqb a' a); reflexivity.
Qed.

Lemma deletions_inv (l : list string) :
  forall st,
  changed (fold_left delete_one l st) = changed st /\
  existsb is_mutating_record (processed_results (fold_left delete_one l st))
  = existsb is_mutating_record (processed_results st) /\
  lists_to_delete (fold_left delete_one l st) = lists_to_delete st.
Proof.
  induction l as [|a l IH]; simpl; intros st; [auto |].
  destruct (IH (delete_one st a)) as [H1 [H2 H3]]. rewrite H1, H2, H3. simpl.
  rewrite mark_deleted_mutating. auto.
Qed.

Lemma issue_keeps (cm : bool) (acc acc' : Clients.cacc) (c : Clients.ccall) :
  Clients.issue cm acc c = Some acc' ->
  Clients.cchanged acc' = Clients.cchanged acc /\ Clients.cresults acc' = Clients.cresults acc.
Proof.
  unfold Clients.issue. destruct cm.
  - intros H. injection H as <-. auto.
  - destruct (Clients.apply_ccall (Clients.cremote acc) c); intros H; [| discriminate].
    injection H as <-. simpl. auto.
Qed.

Lemma cloop_changed_inv (cm : bool) (ec : gmap string Clients.centry) (eg : list (string * group))
    (its : list Clients.citem) :
  forall acc acc', Clients.cloop cm ec eg its acc = Clients.COk acc' ->
  Clients.cchanged acc = existsb cmutating (Clients.cresults acc) ->
  Clients.cchanged acc' = existsb cmutating (Clients.cresults acc').
Proof.
  induction its as [|it its IH]; simpl; intros acc acc' Hl H.
  - injection Hl as <-. exact H.
  - destruct (map_groups_to_ids (Clients.cgroups it) eg) as [gids w].
    destruct (Clients.cstate it).
    + destruct (ec !! Clients.name it) as [e|].
      * destruct (Clients.cneeds_update e (Clients.ccomment it) gids).
        -- destruct (Clients.issue cm acc _) as [acc1|] eqn:Ei; [| discriminate].
           destruct (issue_keeps _ _ _ _ Ei) as [E1 E2].
           apply (IH _ _ Hl). simpl. rewrite existsb_app, E2. simpl. rewrite orb_true_r. reflexivity.
        -- apply (IH _ _ Hl). simpl. rewrite existsb_app, H. simpl. rewrite orb_false_r. reflexivity.
      * destruct (Clients.issue cm acc _) as [acc1|] eqn:Ei; [| discriminate].
        destruct (issue_keeps _ _ _ _ Ei) as [E1 E2].
        apply (IH _ _ Hl). simpl. rewrite existsb_app, E2. simpl. rewrite orb_true_r. reflexivity.
    + apply (IH _ _ Hl). exact H.
Qed.

Lemma cdelete_changed_inv (cm : bool) (l : list string) (acc acc' : Clients.cacc) :
  Clients.cdelete cm l acc = Clients.COk acc' ->
  Clients.cchanged acc = existsb cmutating (Clients.cresults acc) ->
  Clients.cchanged acc' = existsb cmutating (Clients.cresults acc').
Proof.
  unfold Clients.cdelete. destruct l as [|n l].
  - intros Hd H. injection Hd as <-. exact H.
  - destruct (Clients.issue cm _ _) as [acc2|] eqn:Ei; intros Hd H; [| discriminate].
    injection Hd as <-. destruct (issue_keeps _ _ _ _ Ei) as [E1 E2]. rewrite E1, E2.
    simpl. rewrite existsb_app. simpl. rewrite orb_true_r. reflexivity.
Qed.

(** Claim C4, as amended: in clients.py the top-level [changed] is true
    exactly when some result record is created, updated or deleted; in
    allow_list.py it is true exactly when some item record is added,
    updated or deleted, or [update_gravity] is set (outside check mode)
    and the gravity run answers with "List has been updated".  An absent
    item whose key does not exist remotely leaves [changed] as it was:
    allow_list records it as [absent_already]; in clients it is not
    deleted, and its turn of the loop makes no call and leaves the
    remote and [changed] as they were. *)
Theorem changed_iff_some_mutation :
  (forall (cm ug : bool) (gr : string) (gs : list group) (r : gmap string entry) (its : list item),
     changed (run_module cm ug gr gs r its) =
       existsb is_mutating_record (processed_results (run_module cm ug gr gs r its))
       || (negb cm && ug && contains "List has been updated" gr)) /\
  (forall (cm : bool) (gs : list group) (r : gmap string Clients.centry)
          (its : list Clients.citem) (acc : Clients.cacc),
     Clients.main cm gs r its = Clients.COk acc ->
     Clients.cchanged acc = existsb cmutating (Clients.cresults acc)) /\
  (forall (eg : list (string * group)) (st : loop_st) (it : item),
     state it = Absent -> remote st !! address it = None ->
     changed (step eg st it) = changed st /\
     processed_results (step eg st it) = (processed_results st ++ [ItemRecord (address it) AbsentAlready])%list) /\
  (forall (ec : gmap string Clients.centry) (it : Clients.citem) (its : list Clients.citem),
     Clients.cstate it = Absent -> ec !! Clients.name it = None ->
     Clients.clients_to_delete ec (it :: its) = Clients.clients_to_delete ec its) /\
  (forall (cm : bool) (ec : gmap string Clients.centry) (eg : list (string * group))
          (it : Clients.citem) (its : list Clients.citem) (acc : Clients.cacc),
     Clients.cstate it = Absent ->
     exists acc', Clients.cloop cm ec eg (it :: its) acc = Clients.cloop cm ec eg its acc' /\
       Clients.cchanged acc' = Clients.cchanged acc /\ Clients.ccalls acc' = Clients.ccalls acc /\
       Clients.cremote acc' = Clients.cremote acc).
Proof.
  split.
  { intros cm ug gr gs r its. unfold run_module. destruct cm; [reflexivity |].
    set (st := loop (get_existing_groups gs) (init r) its).
    assert (Hl : changed st = existsb is_mutating_record (processed_results st))
      by (apply loop_changed_inv; reflexivity).
    unfold process_deletions.
    destruct (deletions_inv (lists_to_delete st) st) as [D1 [D2 _]].
    unfold gravity. destruct ug; simpl.
    - rewrite existsb_app, D1, D2, Hl. simpl. rewrite orb_false_r. reflexivity.
    - rewrite D1, D2, Hl, orb_false_r. reflexivity. }
  split.
  { intros cm gs r its acc. unfold Clients.main.
    destruct (Clients.cloop cm r _ its _) as [m a | a] eqn:El; intros H; [discriminate |].
    apply (cdelete_changed_inv _ _ _ _ H). apply (cloop_changed_inv _ _ _ _ _ _ El). reflexivity. }
  split.
  { intros eg st it Hs Hr. rewrite (step_absent_missing eg st it Hs Hr). simpl. auto. }
  split.
  { intros ec it its Hs He. unfold Clients.clients_to_delete. simpl. rewrite Hs, He. reflexivity. }
  { intros cm ec eg it its acc Hs. simpl. destruct (map_groups_to_ids (Clients.cgroups it) eg) as [gids w].
    rewrite Hs. eexists. split; [reflexivity |]. simpl. auto. }
Qed.

(** ** Idempotence *)


Lemma cneeds_update_written (X c : option string) (g : list Z) :
  (forall s, c = Some s -> X = Some s) ->
  Clients.cneeds_update {| Clients.ce_comment := X; Clients.ce_groups := g |} c g = false.
Proof.
  intros H. unfold Clients.cneeds_update. simpl.
  assert (A : match c with Some _ => negb (opt_str_eqb X c) | None => false end = false).
  { destruct c as [s|]; [| reflexivity]. rewrite (H s eq_refl). simpl. rewrite String.eqb_refl. reflexivity. }
  rewrite A, set_eqb_refl. reflexivity.
Qed.

Lemma step_other (eg : list (string * group)) (st : loop_st) (it : item) (a : string) :
  a <> address it -> remote (step eg st it) !! a = remote st !! a.
Proof.
  intros Hne. unfold step. destruct (map_groups_to_ids (groups it) eg) as [gids w].
  destruct (state it), (remote st !! address it) as [e|];
    try destruct (needs_update e (comment it) gids (enabled it)); simpl; try reflexivity.
  - rewrite lookup_alter_ne; [reflexivity | congruence].
  - rewrite lookup_insert_ne; [reflexivity | congruence].
Qed.

Lemma loop_other (eg : list (string * group)) (its : list item) (a : string) :
  ~ In a (map address its) -> forall st, remote (loop eg st its) !! a = remote st !! a.
Proof.
  unfold loop. induction its as [|it its IH]; simpl; intros Hn st; [reflexivity |].
  rewrite IH; [| tauto]. apply step_other. intros E. apply Hn. left. congruence.
Qed.





Lemma cloop_cons_ok (ec : gmap string Clients.centry) (eg : list (string * group))
    (it : Clients.citem) (its : list Clients.citem) (acc acc' : Clients.cacc) :
  Clients.cloop false ec eg (it :: its) acc = Clients.COk acc' ->
  exists acc1, Clients.cloop false ec eg its acc1 = Clients.COk acc' /\
    (forall n, n <> Clients.name it -> Clients.cremote acc1 !! n = Clients.cremote acc !! n) /\
    (Clients.cstate it = Present -> Clients.cremote acc !! Clients.name it = ec !! Clients.name it ->
     exists e, Clients.cremote acc1 !! Clients.name it = Some e /\
       Clients.cneeds_update e (Clients.ccomment it) (fst (map_groups_to_ids (Clients.cgroups it) eg)) = false).
Proof.
  destruct (Clients.cstate it) eqn:Hs.
  - destruct (ec !! Clients.name it) as [e|] eqn:He.
    + destruct (Clients.cneeds_update e (Clients.ccomment it)
                  (fst (map_groups_to_ids (Clients.cgroups it) eg))) eqn:Hn.
      * destruct (Clients.cremote acc !! Clients.name it) as [e'|] eqn:Hr.
        -- rewrite (cloop_present_update ec eg it its acc e e' Hs He Hn Hr). intros H.
           eexists. split; [exact H |]. simpl. split.
           ++ intros n Hne. rewrite lookup_insert_ne; [reflexivity | congruence].
           ++ intros _ _. rewrite lookup_insert_eq. eexists. split; [reflexivity |].
              apply cneeds_update_written. intros s E. rewrite E. reflexivity.
        -- simpl. destruct (map_groups_to_ids (Clients.cgroups it) eg) as [gids w].
           rewrite Hs, He. simpl in Hn. rewrite Hn. unfold Clients.issue. simpl. rewrite Hr.
           discriminate.
      * rewrite (cloop_present_keep false ec eg it its acc e Hs He Hn). intros H.
        eexists. split; [exact H |]. simpl. split; [reflexivity |].
        intros _ Hcur. exists e. rewrite Hcur. split; [reflexivity | exact Hn].
    + destruct (Clients.cremote acc !! Clients.name it) as [e'|] eqn:Hr.
      * simpl. destruct (map_groups_to_ids (Clients.cgroups it) eg) as [gids w].
        rewrite Hs, He. unfold Clients.issue. simpl. rewrite Hr. discriminate.
      * rewrite (cloop_present_new ec eg it its acc Hs He Hr). intros H.
        eexists. split; [exact H |]. simpl. split.
        -- intros n Hne. rewrite lookup_insert_ne; [reflexivity | congruence].
        -- intros _ _. rewrite lookup_insert_eq. eexists. split; [reflexivity |].
           apply cneeds_update_written. auto.
  - simpl. destruct (map_groups_to_ids (Clients.cgroups it) eg) as [gids w]. rewrite Hs.
    intros H. eexists. split; [exact H |]. simpl. split; [reflexivity | discriminate].
Qed.

Lemma cloop_other (ec : gmap string Clients.centry) (eg : list (string * group))
    (its : list Clients.citem) (n : string) :
  ~ In n (map Clients.name its) ->
  forall acc acc', Clients.cloop false ec eg its acc = Clients.COk acc' ->
  Clients.cremote acc' !! n = Clients.cremote acc !! n.
Proof.
  induction its as [|it its IH]; intros Hn acc acc' H.
  - simpl in H. injection H as <-. reflexivity.
  - destruct (cloop_cons_ok ec eg it its acc acc' H) as [acc1 [H1 [H2 _]]].
    rewrite (IH (fun X => Hn (or_intror X)) acc1 acc' H1). apply H2.
    intros E. apply Hn. left. congruence.
Qed.




Lemma gravity_remote (ug : bool) (gr : string) (st : loop_st) :
  remote (gravity ug gr st) = remote st.
Proof. destruct ug; reflexivity. Qed.




(** C2 (code bug).  An omitted [groups] is sent as the empty list on
    UPDATE.  In allow_list the comparison treats an empty [groups] as
    "not specified", yet an item updated because its comment changed
    sends [groups=[]], and the remote groups [5] are replaced by none.  In
    clients an omitted [groups] is compared as the empty set, so it
    alone triggers an UPDATE that sends [groups=[]] and clears them.  In
    both cases the comment sent is the one supplied, so nothing here
    depends on how the Pi-hole stores a comment sent as [None]. *)
Theorem omitted_groups_cleared_on_update :
  calls (run_module false false EmptyString []
           (<["a" := {| e_comment := Some "old"; e_groups := [5]; e_enabled := true |}]> ∅)
           [{| address := "a"; state := Present; comment := Some "new"; groups := []; enabled := true |}])
    = [UpdateList "a" (Some "new") [] true] /\
  remote (run_module false false EmptyString []
           (<["a" := {| e_comment := Some "old"; e_groups := [5]; e_enabled := true |}]> ∅)
           [{| address := "a"; state := Present; comment := Some "new"; groups := []; enabled := true |}]) !! "a"
    = Some {| e_comment := Some "new"; e_groups := []; e_enabled := true |} /\
  match Clients.main false [] (<["c" := {| Clients.ce_comment := Some "x"; Clients.ce_groups := [5] |}]> ∅)
          [{| Clients.name := "c"; Clients.cstate := Present; Clients.ccomment := Some "x"; Clients.cgroups := [] |}] with
  | Clients.COk acc =>
      Clients.ccalls acc = [Clients.UpdateClient "c" (Some "x") []] /\
      Clients.cremote acc !! "c" = Some {| Clients.ce_comment := Some "x"; Clients.ce_groups := [] |}
  | Clients.CFail _ _ => False
  end.
Proof. vm_compute. repeat split. Qed.


Lemma request_exit (mk : string -> Hass.event) (env : option string) (f : Hass.fs) :
  Hass.get_headers env f = Hass.ExitCode 1 Hass.missing_token_msg f ->
  Hass.request mk env f = (app (map Hass.Print Hass.missing_token_msg) [Hass.Exit 1], f).
Proof. intros H. unfold Hass.request. rewrite H. reflexivity. Qed.

(** C8.  [get_headers] uses the first non-empty token among the
    [HASS_TOKEN] environment variable, the cached [tmp/hass_token.txt] and
    the vault; only a token taken from the vault is written back, to the
    cache file with mode 0o600 (when the file operations succeed).  When
    no source yields a token it prints a message naming [HASS_TOKEN] and
    exits with status 1, and [check_api_status], [get_state] and
    [call_service] then make no HTTP request and end in that exit. *)
Theorem get_headers_resolution_order :
  forall env f,
  Hass.get_headers env f =
    match Hass.first_truthy [env; Hass.get_token_from_tmp f; Hass.get_token_from_vault f] with
    | Some tok =>
        Hass.Headers tok
          (if negb (truthy env) && negb (truthy (Hass.get_token_from_tmp f)) && Hass.tmp_writable f
           then {| Hass.tmp_token_file := Some (tok, Hass.owner_rw); Hass.vault_view := Hass.vault_view f;
                   Hass.tmp_writable := Hass.tmp_writable f |}
           else f)
    | None => Hass.ExitCode 1 Hass.missing_token_msg f
    end /\
  (Hass.first_truthy [env; Hass.get_token_from_tmp f; Hass.get_token_from_vault f] = None ->
   forall url eid dom svc,
   let runs := [Hass.check_api_status url env f; Hass.get_state url eid env f;
                Hass.call_service url dom svc env f] in
   Forall (fun r => forallb (fun e => negb (Hass.is_network e)) (fst r) = true /\
                    last (fst r) = Some (Hass.Exit 1) /\ snd r = f) runs) /\
  PyStr.contains "HASS_TOKEN" (hd EmptyString Hass.missing_token_msg) = true.
Proof.
  intros env f.
  assert (Eq : Hass.get_headers env f =
    match Hass.first_truthy [env; Hass.get_token_from_tmp f; Hass.get_token_from_vault f] with
    | Some tok =>
        Hass.Headers tok
          (if negb (truthy env) && negb (truthy (Hass.get_token_from_tmp f)) && Hass.tmp_writable f
           then {| Hass.tmp_token_file := Some (tok, Hass.owner_rw); Hass.vault_view := Hass.vault_view f;
                   Hass.tmp_writable := Hass.tmp_writable f |}
           else f)
    | None => Hass.ExitCode 1 Hass.missing_token_msg f
    end).
  { unfold Hass.get_headers, Hass.first_truthy.
    destruct env as [s|]; [destruct (String.eqb s EmptyString) eqn:Es |];
      destruct (Hass.get_token_from_tmp f) as [t|]; try destruct (String.eqb t EmptyString) eqn:Et;
      destruct (Hass.get_token_from_vault f) as [v|]; try destruct (String.eqb v EmptyString) eqn:Ev;
      unfold truthy; simpl; rewrite ?Es, ?Et, ?Ev; simpl; rewrite ?Es, ?Et, ?Ev; simpl;
      try destruct (Hass.tmp_writable f); simpl; rewrite ?Es, ?Et, ?Ev; reflexivity. }
  split; [exact Eq |]. split; [| vm_compute; reflexivity].
  intros Hn url eid dom svc. cbv zeta. rewrite Hn in Eq.
  unfold Hass.check_api_status, Hass.get_state, Hass.call_service.
  rewrite !(request_exit _ env f Eq).
  repeat constructor.
Qed.

(** C9 (code bug).  create_trac_ticket.py does not validate: for every
    argument list it sends [ticket.create] with the given component and
    priority and never asks for [ticket.component.getAll()] or
    [ticket.priority.getAll()].  With the component [Bogus] on a Trac whose
    only component is [SysAdmin], the script creates the ticket, while the
    MCP server's [create_ticket] answers with the list of valid components
    and makes no mutating call. *)
Theorem trac_cli_create_skips_validation :
  (forall args,
     ~ In Trac.ComponentGetAll (Trac.cli_main args) /\ ~ In Trac.PriorityGetAll (Trac.cli_main args) /\
     exists s d attrs n, Trac.cli_main args = [Trac.TicketCreate s d attrs n] /\
       In ("component", Trac.a_component args) attrs /\ In ("priority", Trac.a_priority args) attrs) /\
  (let t := {| Trac.valid_components := ["SysAdmin"]; Trac.valid_priorities := ["major"];
               Trac.created_id := "1" |} in
   let args := {| Trac.a_summary := "s"; Trac.a_description := "d"; Trac.a_component := "Bogus";
                  Trac.a_keywords := EmptyString; Trac.a_type := "task"; Trac.a_priority := "major";
                  Trac.a_milestone := EmptyString; Trac.a_owner := EmptyString; Trac.a_cc := EmptyString |} in
   Trac.mem "Bogus" (Trac.valid_components t) = false /\
   existsb Trac.is_mutation (Trac.cli_main args) = true /\
   Trac.create_ticket t "s" "d" "Bogus" "task" "major" EmptyString =
     (Trac.invalid_component_msg "Bogus" ["SysAdmin"], [Trac.ComponentGetAll])).
Proof.
  split.
  - intros args. unfold Trac.cli_main. split; [intros [H|[]]; discriminate |].
    split; [intros [H|[]]; discriminate |].
    do 4 eexists. split; [reflexivity |]. simpl. split; [left | right; right; right; left]; reflexivity.
  - vm_compute. repeat split.
Qed.

(** C1 (code bug).  clients.py emits no result record for an [absent]
    client that does not exist: from an empty remote, [main] with the
    single item [10.0.0.1, absent] succeeds with no result at all, while
    allow_list reports the same request as [absent_already]. *)
Theorem clients_absent_missing_no_record :
  Clients.main false [] ∅
    [{| Clients.name := "10.0.0.1"; Clients.cstate := Absent; Clients.ccomment := None; Clients.cgroups := [] |}] =
  Clients.COk {| Clients.cremote := ∅; Clients.cresults := []; Clients.cchanged := false;
                 Clients.cwarnings := []; Clients.ccalls := [] |} /\
  processed_results (run_module false false EmptyString [] ∅
    [{| address := "10.0.0.1"; state := Absent; comment := None; groups := []; enabled := true |}]) =
  [ItemRecord "10.0.0.1" AbsentAlready].
Proof. vm_compute. split; reflexivity. Qed.

(** C4 (counterexample).  With [update_gravity] set, a run whose only
    item is already in the wanted state reports [changed=true] as soon as
    the gravity output contains [List has been updated], although no item
    was created, updated or deleted. *)
Lemma changed_without_mutation_counterexample :
  let r := <["a" := {| e_comment := None; e_groups := []; e_enabled := true |}]> ∅ in
  let it := {| address := "a"; state := Present; comment := None; groups := []; enabled := true |} in
  let st := run_module false true "Pi-hole: List has been updated" [] r [it] in
  changed st = true /\ existsb is_mutating_record (processed_results st) = false /\
  processed_results st = [ItemRecord "a" Unchanged; GravityRecord].
Proof. vm_compute. repeat split. Qed.

(** * Witnesses *)

Lemma groups_compared_as_sets_witness :
  let gi1 := [GroupName "Default"; GroupId 7] in
  let gi2 := [GroupId 7; GroupName "Default"] in
  let eg := get_existing_groups [{| g_name := "Default"; g_id := 0 |}] in
  let e := {| e_comment := None; e_groups := [7; 0]; e_enabled := true |} in
  let ce := {| Clients.ce_comment := None; Clients.ce_groups := [0] |} in
  (forall x, In x gi1 <-> In x gi2) /\
  needs_update e None (fst (map_groups_to_ids gi1 eg)) true
    = needs_update e None (fst (map_groups_to_ids gi2 eg)) true /\
  Clients.cneeds_update ce (Some "c") (fst (map_groups_to_ids gi1 eg))
    = Clients.cneeds_update ce (Some "c") (fst (map_groups_to_ids gi2 eg)) /\
  (forall x, In x [1; 2] <-> In x [2; 1]) /\
  needs_update e None [1; 2] false = needs_update e None [2; 1] false.
Proof.
  cbv zeta.
  assert (H1 : forall x, In x [GroupName "Default"; GroupId 7] <-> In x [GroupId 7; GroupName "Default"])
    by (intros x; simpl; tauto).
  assert (H2 : forall x : Z, In x [1; 2] <-> In x [2; 1]) by (intros x; simpl; tauto).
  split; [exact H1 |]. split; [exact (proj1 (proj1 groups_compared_as_sets _ _ _ H1) _ None true) |].
  split; [exact (proj2 (proj1 groups_compared_as_sets _ _ _ H1) _ (Some "c")) |].
  split; [exact H2 |]. exact (proj1 (proj2 groups_compared_as_sets _ _ H2) _ None false).
Defined.

Lemma name_resolution_case_insensitive_witness :
  let gs := [{| g_name := "Default"; g_id := 0 |}; {| g_name := "IoT"; g_id := 4 |}] in
  let ls := [{| l_title := "Urgent"; l_id := 3 |}] in
  (exists g, In g gs /\ lower (g_name g) = lower "iot") /\
  (exists g', In g' gs /\ lower (g_name g') = lower "iot" /\
     map_groups_to_ids [GroupName "iot"] (get_existing_groups gs) = ([g_id g'], None)) /\
  (exists l, In l ls /\ lower (l_title l) = lower "URGENT") /\
  (exists l', In l' ls /\ lower (l_title l') = lower "URGENT" /\
     resolve_labels ls (fun _ => None) ["URGENT"] = [l_id l']).
Proof.
  cbv zeta.
  assert (H1 : exists g, In g [{| g_name := "Default"; g_id := 0 |}; {| g_name := "IoT"; g_id := 4 |}]
                 /\ lower (g_name g) = lower "iot")
    by (exists {| g_name := "IoT"; g_id := 4 |}; split; [right; left; reflexivity | vm_compute; reflexivity]).
  assert (H2 : exists l, In l [{| l_title := "Urgent"; l_id := 3 |}] /\ lower (l_title l) = lower "URGENT")
    by (exists {| l_title := "Urgent"; l_id := 3 |}; split; [left; reflexivity | vm_compute; reflexivity]).
  split; [exact H1 |]. split; [exact (proj1 name_resolution_case_insensitive _ _ H1) |].
  split; [exact H2 |]. exact (proj2 name_resolution_case_insensitive _ (fun _ => None) _ H2).
Defined.

Lemma unresolved_groups_dropped_with_warning_witness :
  let eg := get_existing_groups [{| g_name := "Default"; g_id := 0 |}] in
  let it := {| address := "a"; state := Present; comment := None;
               groups := [GroupName "default"; GroupName "missing"]; enabled := true |} in
  let e := {| e_comment := None; e_groups := [3]; e_enabled := true |} in
  let cit := {| Clients.name := "c"; Clients.cstate := Present; Clients.ccomment := None;
                Clients.cgroups := [GroupName "missing"] |} in
  let ce := {| Clients.ce_comment := None; Clients.ce_groups := [3] |} in
  let acc0 := {| Clients.cremote := ∅; Clients.cresults := []; Clients.cchanged := false;
                 Clients.cwarnings := []; Clients.ccalls := [] |} in
  let acc1 := {| Clients.cremote := <["c" := ce]> ∅; Clients.cresults := []; Clients.cchanged := false;
                 Clients.cwarnings := []; Clients.ccalls := [] |} in
  state it = Present /\ remote (init ∅) !! address it = None /\
  calls (step eg (init ∅) it) = [AddList "a" None (resolved_ids (groups it) eg) true] /\
  remote (init (<["a" := e]> ∅)) !! address it = Some e /\
  needs_update e (comment it) (resolved_ids (groups it) eg) (enabled it) = true /\
  calls (step eg (init (<["a" := e]> ∅)) it) = [UpdateList "a" None (resolved_ids (groups it) eg) true] /\
  Clients.cstate cit = Present /\ (∅ : gmap string Clients.centry) !! Clients.name cit = None /\
  Clients.cremote acc0 !! Clients.name cit = None /\
  (exists acc', Clients.cloop false ∅ eg [cit] acc0 = Clients.cloop false ∅ eg [] acc' /\
     Clients.ccalls acc' = [Clients.AddClient "c" None (resolved_ids (Clients.cgroups cit) eg)]) /\
  (<["c" := ce]> ∅ : gmap string Clients.centry) !! Clients.name cit = Some ce /\
  Clients.cneeds_update ce (Clients.ccomment cit) (resolved_ids (Clients.cgroups cit) eg) = true /\
  Clients.cremote acc1 !! Clients.name cit = Some ce /\
  (exists acc', Clients.cloop false (<["c" := ce]> ∅) eg [cit] acc1 = Clients.cloop false (<["c" := ce]> ∅) eg [] acc' /\
     Clients.ccalls acc' = [Clients.UpdateClient "c" None (resolved_ids (Clients.cgroups cit) eg)]).
Proof.
  cbv zeta.
  destruct unresolved_groups_dropped_with_warning as [_ [_ [_ [T4 [T5 [T6 T7]]]]]].
  assert (Hs : state {| address := "a"; state := Present; comment := None;
               groups := [GroupName "default"; GroupName "missing"]; enabled := true |} = Present) by reflexivity.
  assert (Ha : remote (init ∅) !! "a" = None) by reflexivity.
  assert (Hb : remote (init (<["a" := {| e_comment := None; e_groups := [3]; e_enabled := true |}]> ∅)) !! "a"
               = Some {| e_comment := None; e_groups := [3]; e_enabled := true |}) by reflexivity.
  assert (Hu : needs_update {| e_comment := None; e_groups := [3]; e_enabled := true |} None
                 (resolved_ids [GroupName "default"; GroupName "missing"]
                    (get_existing_groups [{| g_name := "Default"; g_id := 0 |}])) true = true) by (vm_compute; reflexivity).
  assert (Hcs : Clients.cstate {| Clients.name := "c"; Clients.cstate := Present; Clients.ccomment := None;
                Clients.cgroups := [GroupName "missing"] |} = Present) by reflexivity.
  assert (Hc0 : (∅ : gmap string Clients.centry) !! "c" = None) by reflexivity.
  assert (Hc1 : (<["c" := {| Clients.ce_comment := None; Clients.ce_groups := [3] |}]> ∅ : gmap string Clients.centry)
                 !! "c" = Some {| Clients.ce_comment := None; Clients.ce_groups := [3] |}) by reflexivity.
  assert (Hcu : Clients.cneeds_update {| Clients.ce_comment := None; Clients.ce_groups := [3] |} None
                 (resolved_ids [GroupName "missing"]
                    (get_existing_groups [{| g_name := "Default"; g_id := 0 |}])) = true) by (vm_compute; reflexivity).
  split; [exact Hs |]. split; [exact Ha |]. split; [exact (T4 _ _ _ Hs Ha) |].
  split; [exact Hb |]. split; [exact Hu |]. split; [exact (T5 _ _ _ _ Hs Hb Hu) |].
  split; [exact Hcs |]. split; [exact Hc0 |]. split; [exact Hc0 |].
  split; [exact (T6 ∅ _ _ [] {| Clients.cremote := ∅; Clients.cresults := []; Clients.cchanged := false;
                 Clients.cwarnings := []; Clients.ccalls := [] |} Hcs Hc0 Hc0) |].
  split; [exact Hc1 |]. split; [exact Hcu |]. split; [exact Hc1 |].
  exact (T7 _ _ _ [] {| Clients.cremote := <["c" := {| Clients.ce_comment := None; Clients.ce_groups := [3] |}]> ∅;
                        Clients.cresults := []; Clients.cchanged := false;
                        Clients.cwarnings := []; Clients.ccalls := [] |} _ _ Hcs Hc1 Hcu Hc1).
Defined.

Lemma changed_iff_some_mutation_witness :
  let cit := {| Clients.name := "a"; Clients.cstate := Present; Clients.ccomment := None; Clients.cgroups := [] |} in
  let acc := {| Clients.cremote := <["a" := {| Clients.ce_comment := None; Clients.ce_groups := [] |}]> ∅;
                Clients.cresults := [{| Clients.r_name := "a"; Clients.r_state := Clients.Created |}];
                Clients.cchanged := true; Clients.cwarnings := [];
                Clients.ccalls := [Clients.AddClient "a" None []] |} in
  let ab := {| address := "b"; state := Absent; comment := None; groups := []; enabled := true |} in
  let cab := {| Clients.name := "b"; Clients.cstate := Absent; Clients.ccomment := None; Clients.cgroups := [] |} in
  Clients.main false [] ∅ [cit] = Clients.COk acc /\
  Clients.cchanged acc = existsb cmutating (Clients.cresults acc) /\
  state ab = Absent /\ remote (init ∅) !! address ab = None /\
  changed (step [] (init ∅) ab) = false /\
  (∅ : gmap string Clients.centry) !! Clients.name cab = None /\
  Clients.clients_to_delete ∅ [cab; cit] = Clients.clients_to_delete ∅ [cit] /\
  Clients.cstate cab = Absent /\
  (exists acc', Clients.cloop false ∅ [] [cab] acc = Clients.cloop false ∅ [] [] acc' /\
     Clients.cchanged acc' = true /\ Clients.ccalls acc' = Clients.ccalls acc /\
     Clients.cremote acc' = Clients.cremote acc).
Proof.
  cbv zeta.
  destruct changed_iff_some_mutation as [_ [T2 [T3 [T4 T5]]]].
  assert (Hm : Clients.main false [] ∅
                 [{| Clients.name := "a"; Clients.cstate := Present; Clients.ccomment := None; Clients.cgroups := [] |}]
               = Clients.COk {| Clients.cremote := <["a" := {| Clients.ce_comment := None; Clients.ce_groups := [] |}]> ∅;
                Clients.cresults := [{| Clients.r_name := "a"; Clients.r_state := Clients.Created |}];
                Clients.cchanged := true; Clients.cwarnings := [];
                Clients.ccalls := [Clients.AddClient "a" None []] |}) by (vm_compute; reflexivity).
  assert (Hs : state {| address := "b"; state := Absent; comment := None; groups := []; enabled := true |} = Absent)
    by reflexivity.
  assert (Hr : remote (init ∅) !! "b" = None) by reflexivity.
  assert (Hcs : Clients.cstate {| Clients.name := "b"; Clients.cstate := Absent; Clients.ccomment := None;
                                  Clients.cgroups := [] |} = Absent) by reflexivity.
  assert (Hc : (∅ : gmap string Clients.centry) !! "b" = None) by reflexivity.
  split; [exact Hm |]. split; [exact (T2 _ _ _ _ _ Hm) |].
  split; [exact Hs |]. split; [exact Hr |]. split; [exact (proj1 (T3 [] _ _ Hs Hr)) |].
  split; [exact Hc |]. split; [exact (T4 _ _ _ Hcs Hc) |].
  split; [exact Hcs |].
  destruct (T5 false ∅ [] _ [] {| Clients.cremote := <["a" := {| Clients.ce_comment := None; Clients.ce_groups := [] |}]> ∅;
                Clients.cresults := [{| Clients.r_name := "a"; Clients.r_state := Clients.Created |}];
                Clients.cchanged := true; Clients.cwarnings := [];
                Clients.ccalls := [Clients.AddClient "a" None []] |} Hcs) as [acc' [E [C [K R]]]].
  exists acc'. split; [exact E |]. split; [exact C |]. split; [exact K | exact R].
Defined.


Lemma get_headers_resolution_order_witness :
  let f := {| Hass.tmp_token_file := None; Hass.vault_view := Some ["other: 1"]; Hass.tmp_writable := true |} in
  Hass.first_truthy [None; Hass.get_token_from_tmp f; Hass.get_token_from_vault f] = None /\
  Forall (fun r => forallb (fun e => negb (Hass.is_network e)) (fst r) = true /\
                   last (fst r) = Some (Hass.Exit 1) /\ snd r = f)
    [Hass.check_api_status "http://hass.home.arpa" None f;
     Hass.get_state "http://hass.home.arpa" "light.kitchen" None f;
     Hass.call_service "http://hass.home.arpa" "light" "turn_on" None f].
Proof.
  cbv zeta.
  assert (Hn : Hass.first_truthy [None; Hass.get_token_from_tmp
                 {| Hass.tmp_token_file := None; Hass.vault_view := Some ["other: 1"]; Hass.tmp_writable := true |};
                 Hass.get_token_from_vault
                 {| Hass.tmp_token_file := None; Hass.vault_view := Some ["other: 1"]; Hass.tmp_writable := true |}]
               = None) by (vm_compute; reflexivity).
  split; [exact Hn |].
  exact (proj1 (proj2 (get_headers_resolution_order None _)) Hn
           "http://hass.home.arpa" "light.kitchen" "light" "turn_on").
Defined.

(** * Further properties of the Pi-hole modules *)

Lemma step_ltd (eg : list (string * group)) (st : loop_st) (it : item) (x : string) :
  In x (lists_to_delete (step eg st it)) -> In x (lists_to_delete st) \/ x = address it.
Proof.
  unfold step. destruct (map_groups_to_ids (groups it) eg) as [gids w].
  destruct (state it), (remote st !! address it) as [e|];
    try destruct (needs_update e (comment it) gids (enabled it)); simpl; intros H; auto.
  all: try (rewrite in_app_iff in H; simpl in H; destruct H as [H|[H|[]]]; auto).
Qed.

Lemma step_ltd_mono (eg : list (string * group)) (st : loop_st) (it : item) (x : string) :
  In x (lists_to_delete st) -> In x (lists_to_delete (step eg st it)).
Proof.
  unfold step. destruct (map_groups_to_ids (groups it) eg) as [gids w].
  destruct (state it), (remote st !! address it) as [e|];
    try destruct (needs_update e (comment it) gids (enabled it)); simpl; intros H; auto.
  all: apply in_app_iff; auto.
Qed.

Lemma loop_ltd (eg : list (string * group)) (its : list item) :
  forall st x, In x (lists_to_delete (loop eg st its)) ->
  In x (lists_to_delete st) \/ In x (map address its).
Proof.
  unfold loop. induction its as [|it its IH]; simpl; intros st x H; [auto |].
  destruct (IH _ _ H) as [H1|H1]; [| auto].
  destruct (step_ltd eg st it x H1); auto.
Qed.

Lemma loop_ltd_mono (eg : list (string * group)) (its : list item) :
  forall st x, In x (lists_to_delete st) -> In x (lists_to_delete (loop eg st its)).
Proof.
  unfold loop. induction its as [|it its IH]; simpl; intros st x H; [auto |].
  apply IH. apply step_ltd_mono. exact H.
Qed.

Lemma fold_delete_other (l : list string) (a : string) :
  ~ In a l -> forall st, remote (fold_left delete_one l st) !! a = remote st !! a.
Proof.
  induction l as [|b l IH]; simpl; intros Hn st; [reflexivity |].
  rewrite IH; [| tauto]. simpl. rewrite lookup_delete_ne; [reflexivity | intros E; apply Hn; left; congruence].
Qed.

Lemma fold_delete_none (l : list string) (a : string) :
  forall st, remote st !! a = None -> remote (fold_left delete_one l st) !! a = None.
Proof.
  induction l as [|b l IH]; simpl; intros st H; [exact H |].
  apply IH. simpl. destruct (String.eqb_spec a b) as [->|Hne].
  - apply lookup_delete_eq.
  - rewrite lookup_delete_ne; [exact H | congruence].
Qed.

Lemma fold_delete_in (l : list string) (a : string) :
  In a l -> forall st, remote (fold_left delete_one l st) !! a = None.
Proof.
  induction l as [|b l IH]; simpl; intros Hin st; [contradiction |].
  destruct Hin as [<-|Hin].
  - apply fold_delete_none. simpl. apply lookup_delete_eq.
  - apply IH. exact Hin.
Qed.

Lemma step_dom (eg : list (string * group)) (st : loop_st) (it : item) (a : string) :
  is_Some (remote st !! a) -> is_Some (remote (step eg st it) !! a).
Proof.
  intros H. unfold step. destruct (map_groups_to_ids (groups it) eg) as [gids w].
  destruct (state it), (remote st !! address it) as [e|] eqn:Hr;
    try destruct (needs_update e (comment it) gids (enabled it)); simpl; try exact H.
  - destruct (String.eqb_spec a (address it)) as [->|Hne].
    + rewrite lookup_alter, Hr. destruct (decide _); eexists; reflexivity.
    + rewrite lookup_alter_ne; [exact H | congruence].
  - destruct (String.eqb_spec a (address it)) as [->|Hne].
    + rewrite lookup_insert_eq. eexists. reflexivity.
    + rewrite lookup_insert_ne; [exact H | congruence].
Qed.

Lemma loop_absent_listed (eg : list (string * group)) (its : list item) :
  forall st it, In it its -> state it = Absent -> is_Some (remote st !! address it) ->
  In (address it) (lists_to_delete (loop eg st its)).
Proof.
  unfold loop. induction its as [|i its IH]; simpl; intros st it Hin Hs Hd; [contradiction |].
  destruct Hin as [<-|Hin].
  - apply loop_ltd_mono. unfold step. destruct (map_groups_to_ids (groups i) eg) as [gids w].
    rewrite Hs. destruct (remote st !! address i) as [e|]; [| destruct Hd; discriminate].
    simpl. apply in_app_iff. right. left. reflexivity.
  - apply IH; [exact Hin | exact Hs |]. apply step_dom. exact Hd.
Qed.

Lemma mark_deleted_marked (b a : string) (rs : list record) :
  In (ItemRecord a MarkedForDeletion) (mark_deleted b rs) ->
  In (ItemRecord a MarkedForDeletion) rs /\ a <> b.
Proof.
  unfold mark_deleted. rewrite in_map_iff. intros [r [Er Hr]].
  destruct r as [a' act|]; [| discriminate].
  destruct act; try (injection Er as E1 E2; discriminate).
  destruct (String.eqb a' b) eqn:Eb; [discriminate |].
  injection Er as ->. split; [exact Hr |]. apply String.eqb_neq. exact Eb.
Qed.

Lemma fold_delete_marked (l : list string) (a : string) :
  forall st, In (ItemRecord a MarkedForDeletion) (processed_results (fold_left delete_one l st)) ->
  In (ItemRecord a MarkedForDeletion) (processed_results st) /\ ~ In a l.
Proof.
  induction l as [|b l IH]; simpl; intros st H; [auto |].
  destruct (IH _ H) as [H1 H2]. simpl in H1.
  destruct (mark_deleted_marked _ _ _ H1) as [H3 H4]. split; [exact H3 |]. intros [E|E]; auto.
Qed.

Lemma step_marked (eg : list (string * group)) (st : loop_st) (it : item) (a : string) :
  In (ItemRecord a MarkedForDeletion) (processed_results (step eg st it)) ->
  In (ItemRecord a MarkedForDeletion) (processed_results st) \/ In a (lists_to_delete (step eg st it)).
Proof.
  unfold step. destruct (map_groups_to_ids (groups it) eg) as [gids w].
  destruct (state it), (remote st !! address it) as [e|];
    try destruct (needs_update e (comment it) gids (enabled it)); simpl;
    rewrite in_app_iff; simpl; intros [H|[H|[]]]; auto; try discriminate.
  all: injection H as ->; right; apply in_app_iff; right; left; reflexivity.
Qed.

Lemma loop_marked (eg : list (string * group)) (its : list item) :
  forall st a, (forall b, In (ItemRecord b MarkedForDeletion) (processed_results st) -> In b (lists_to_delete st)) ->
  In (ItemRecord a MarkedForDeletion) (processed_results (loop eg st its)) ->
  In a (lists_to_delete (loop eg st its)).
Proof.
  unfold loop. induction its as [|it its IH]; simpl; intros st a Hinv H; [auto |].
  apply (IH _ a); [| exact H].
  intros b Hb. destruct (step_marked eg st it b Hb) as [H1|H1]; [| exact H1].
  apply step_ltd_mono. apply Hinv. exact H1.
Qed.

Lemma gravity_results (ug : bool) (gr : string) (st : loop_st) :
  processed_results (gravity ug gr st) =
  (processed_results st ++ (if ug then [GravityRecord] else []))%list.
Proof. destruct ug; simpl; [reflexivity | rewrite app_nil_r; reflexivity]. Qed.

Lemma process_deletions_ltd (st : loop_st) :
  forall l, lists_to_delete (fold_left delete_one l st) = lists_to_delete st.
Proof. intros l. apply (proj2 (proj2 (deletions_inv l st))). Qed.

(** allow_list [run_module] never touches an address that no item of
    [lists] names: its remote entry is the same after the run. *)
Theorem allow_list_other_addresses_untouched :
  forall cm ug gr gs r its a, ~ In a (map address its) ->
  remote (run_module cm ug gr gs r its) !! a = r !! a.
Proof.
  intros cm ug gr gs r its a Hn. unfold run_module. destruct cm; [reflexivity |].
  rewrite gravity_remote. unfold process_deletions.
  rewrite fold_delete_other.
  - apply loop_other. exact Hn.
  - intros H. destruct (loop_ltd _ its (init r) a H) as [[]|H']. contradiction.
Qed.

(** After an allow_list run no result is left [marked_for_deletion]:
    every marked address is deleted and its records become [deleted]. *)
Theorem allow_list_no_marked_left :
  forall cm ug gr gs r its a,
  ~ In (ItemRecord a MarkedForDeletion) (processed_results (run_module cm ug gr gs r its)).
Proof.
  intros cm ug gr gs r its a. unfold run_module. destruct cm; [simpl; tauto |].
  rewrite gravity_results, in_app_iff. intros [H|H].
  - unfold process_deletions in H.
    destruct (fold_delete_marked _ _ _ H) as [H1 H2]. apply H2.
    apply (loop_marked _ its (init r)); [simpl; tauto | exact H1].
  - destruct ug; simpl in H; [destruct H as [H|[]]; discriminate | exact H].
Qed.

(** An [absent] item whose address is on the remote allow list when the
    run starts is gone afterwards, even when a [present] item for the
    same address comes later in [lists]: deletions run after the loop. *)
Theorem allow_list_absent_wins :
  forall ug gr gs r its it, In it its -> state it = Absent -> is_Some (r !! address it) ->
  remote (run_module false ug gr gs r its) !! address it = None.
Proof.
  intros ug gr gs r its it Hin Hs Hd. unfold run_module. rewrite gravity_remote.
  unfold process_deletions. apply fold_delete_in.
  apply (loop_absent_listed _ its (init r) it Hin Hs Hd).
Qed.

Lemma issue_keeps_warnings (cm : bool) (acc acc' : Clients.cacc) (c : Clients.ccall) :
  Clients.issue cm acc c = Some acc' -> Clients.cwarnings acc' = Clients.cwarnings acc.
Proof.
  unfold Clients.issue. destruct cm.
  - intros H. injection H as <-. reflexivity.
  - destruct (Clients.apply_ccall (Clients.cremote acc) c); intros H; [| discriminate].
    injection H as <-. reflexivity.
Qed.

Lemma cloop_check (ec : gmap string Clients.centry) (eg : list (string * group))
    (its : list Clients.citem) :
  forall acc, exists a', Clients.cloop true ec eg its acc = Clients.COk a' /\
    Clients.cremote a' = Clients.cremote acc /\ Clients.ccalls a' = Clients.ccalls acc.
Proof.
  induction its as [|it its IH]; simpl; intros acc.
  - exists acc. auto.
  - destruct (map_groups_to_ids (Clients.cgroups it) eg) as [gids w].
    destruct (Clients.cstate it); [destruct (ec !! Clients.name it) as [e|];
      [destruct (Clients.cneeds_update e (Clients.ccomment it) gids) |] |]; simpl;
      match goal with |- context [Clients.cloop true ec eg its ?a] =>
        destruct (IH a) as [a' [E [R C]]] end;
      rewrite E; exists a'; split; auto.
Qed.

Lemma cloop_check_same (ec : gmap string Clients.centry) (eg : list (string * group))
    (its : list Clients.citem) :
  forall accf acct a,
  Clients.cresults accf = Clients.cresults acct -> Clients.cchanged accf = Clients.cchanged acct ->
  Clients.cwarnings accf = Clients.cwarnings acct ->
  Clients.cloop false ec eg its accf = Clients.COk a ->
  exists a', Clients.cloop true ec eg its acct = Clients.COk a' /\
    Clients.cresults a = Clients.cresults a' /\ Clients.cchanged a = Clients.cchanged a' /\
    Clients.cwarnings a = Clients.cwarnings a'.
Proof.
  induction its as [|it its IH]; intros accf acct a R C W H.
  - simpl in H. injection H as <-. exists acct. auto.
  - cbn [Clients.cloop] in H |- *.
    destruct (map_groups_to_ids (Clients.cgroups it) eg) as [gids w].
    cbn beta iota zeta in H |- *.
    destruct (Clients.cstate it).
    + destruct (ec !! Clients.name it) as [e|].
      * destruct (Clients.cneeds_update e (Clients.ccomment it) gids).
        -- destruct (Clients.issue false accf _) as [acc1|] eqn:Ei; [| discriminate].
           destruct (issue_keeps _ _ _ _ Ei) as [_ R1]. pose proof (issue_keeps_warnings _ _ _ _ Ei) as W1.
           simpl. refine (IH _ _ _ _ _ _ H); simpl; congruence.
        -- refine (IH _ _ _ _ _ _ H); simpl; congruence.
      * destruct (Clients.issue false accf _) as [acc1|] eqn:Ei; [| discriminate].
        destruct (issue_keeps _ _ _ _ Ei) as [_ R1]. pose proof (issue_keeps_warnings _ _ _ _ Ei) as W1.
        simpl. refine (IH _ _ _ _ _ _ H); simpl; congruence.
    + refine (IH _ _ _ _ _ _ H); simpl; congruence.
Qed.

(** clients [main] in check mode is a dry run: it always succeeds, makes
    no API call and leaves the remote client table as it is, and when the
    same run without check mode succeeds, it reports exactly the same
    results, [changed] flag and warnings. *)
Theorem clients_check_mode_dry_run :
  forall gs r its, exists acc',
  Clients.main true gs r its = Clients.COk acc' /\ Clients.cremote acc' = r /\ Clients.ccalls acc' = [] /\
  forall acc, Clients.main false gs r its = Clients.COk acc ->
  Clients.cresults acc = Clients.cresults acc' /\ Clients.cchanged acc = Clients.cchanged acc' /\
  Clients.cwarnings acc = Clients.cwarnings acc'.
Proof.
  intros gs r its. unfold Clients.main.
  set (eg := get_existing_groups gs).
  set (i0 := {| Clients.cremote := r; Clients.cresults := []; Clients.cchanged := false;
                Clients.cwarnings := []; Clients.ccalls := [] |}).
  destruct (cloop_check r eg its i0) as [a' [E [R C]]]. rewrite E.
  assert (Hf : forall acc, match Clients.cloop false r eg its i0 with
                           | Clients.CFail m acc0 => Clients.CFail m acc0
                           | Clients.COk acc0 => Clients.cdelete false (Clients.clients_to_delete r its) acc0
                           end = Clients.COk acc ->
            exists af, Clients.cloop false r eg its i0 = Clients.COk af /\
              Clients.cdelete false (Clients.clients_to_delete r its) af = Clients.COk acc).
  { intros acc H. destruct (Clients.cloop false r eg its i0) as [m a0|af]; [discriminate |].
    exists af. auto. }
  unfold Clients.cdelete. destruct (Clients.clients_to_delete r its) as [|n l] eqn:Ed.
  - exists a'. split; [reflexivity |]. split; [exact R |]. split; [exact C |].
    intros acc H. destruct (Hf acc H) as [af [E1 E2]]. injection E2 as <-.
    destruct (cloop_check_same r eg its i0 i0 af eq_refl eq_refl eq_refl E1) as [a'' [E' H']].
    rewrite E in E'. injection E' as <-. exact H'.
  - simpl. eexists. split; [reflexivity |]. simpl. split; [exact R |]. split; [exact C |].
    intros acc H. destruct (Hf acc H) as [af [E1 E2]]. unfold Clients.cdelete in E2.
    destruct (Clients.issue false _ _) as [acc2|] eqn:Ei; [| discriminate]. injection E2 as <-.
    destruct (issue_keeps _ _ _ _ Ei) as [C2 R2]. pose proof (issue_keeps_warnings _ _ _ _ Ei) as W2.
    rewrite C2, R2, W2. simpl.
    destruct (cloop_check_same r eg its i0 i0 af eq_refl eq_refl eq_refl E1) as [a'' [E' [H1 [H2 H3]]]].
    rewrite E in E'. injection E' as <-. rewrite H1, H3. auto.
Qed.

Lemma fold_gmap_delete (ns : list string) :
  forall (m : gmap string Clients.centry) n,
  fold_left (fun r' n' => delete n' r') ns m !! n = if existsb (String.eqb n) ns then None else m !! n.
Proof.
  induction ns as [|x ns IH]; simpl; intros m n; [reflexivity |].
  rewrite IH. destruct (String.eqb_spec n x) as [->|Hne]; simpl.
  - destruct (existsb _ ns); [reflexivity | apply lookup_delete_eq].
  - destruct (existsb _ ns); [reflexivity |]. apply lookup_delete_ne. congruence.
Qed.

Lemma cdelete_remote (l : list string) (a acc : Clients.cacc) :
  Clients.cdelete false l a = Clients.COk acc ->
  forall n, Clients.cremote acc !! n = if existsb (String.eqb n) l then None else Clients.cremote a !! n.
Proof.
  unfold Clients.cdelete. destruct l as [|n0 l'].
  - intros H. injection H as <-. reflexivity.
  - unfold Clients.issue. simpl. intros H n.
    destruct l' as [|n1 l'']; simpl in H.
    + destruct (Clients.cremote a !! n0); [| discriminate]. injection H as <-. simpl.
      rewrite orb_false_r. destruct (String.eqb_spec n n0) as [->|Hne].
      * apply lookup_delete_eq.
      * apply lookup_delete_ne. congruence.
    + injection H as <-. simpl. apply (fold_gmap_delete (n0 :: n1 :: l'')).
Qed.

Lemma clients_to_delete_spec (ec : gmap string Clients.centry) (its : list Clients.citem) (n : string) :
  In n (Clients.clients_to_delete ec its) <->
  exists it, In it its /\ Clients.cstate it = Absent /\ is_Some (ec !! Clients.name it) /\ Clients.name it = n.
Proof.
  unfold Clients.clients_to_delete. rewrite in_map_iff. split.
  - intros [it [E Hin]]. apply filter_In in Hin as [Hin Hb].
    destruct (Clients.cstate it) eqn:Hs; [discriminate |].
    exists it. repeat split; auto. apply bool_decide_eq_true in Hb. exact Hb.
  - intros [it [Hin [Hs [Hd E]]]]. exists it. split; [exact E |]. apply filter_In. split; [exact Hin |].
    rewrite Hs. apply bool_decide_eq_true. exact Hd.
Qed.

(** A successful clients run changes only the clients its list names,
    and every [absent] client that existed when the run started is
    deleted, even when a [present] item for the same name follows. *)
Theorem clients_touch_only_listed :
  forall gs r its acc, Clients.main false gs r its = Clients.COk acc ->
  (forall n, ~ In n (map Clients.name its) -> Clients.cremote acc !! n = r !! n) /\
  (forall it, In it its -> Clients.cstate it = Absent -> is_Some (r !! Clients.name it) ->
     Clients.cremote acc !! Clients.name it = None).
Proof.
  intros gs r its acc. unfold Clients.main.
  destruct (Clients.cloop false r _ its _) as [m a|a] eqn:E; [discriminate |].
  intros H. pose proof (cdelete_remote _ _ _ H) as D. split.
  - intros n Hn. rewrite D.
    destruct (existsb (String.eqb n) (Clients.clients_to_delete r its)) eqn:Ex.
    + exfalso. apply existsb_exists in Ex as [x [Hx Ex]]. apply String.eqb_eq in Ex. subst x.
      apply clients_to_delete_spec in Hx as [it [Hin [_ [_ En]]]]. apply Hn. rewrite <- En.
      apply in_map. exact Hin.
    + rewrite (cloop_other r _ its n Hn _ _ E). reflexivity.
  - intros it Hin Hs Hd. rewrite D.
    assert (Hx : existsb (String.eqb (Clients.name it)) (Clients.clients_to_delete r its) = true).
    { apply existsb_exists. exists (Clients.name it). split; [| apply String.eqb_refl].
      apply clients_to_delete_spec. exists it. auto. }
    rewrite Hx. reflexivity.
Qed.

(** ** String lemmas *)

#[local] Arguments String.append : simpl nomatch.

Lemma str_app_assoc (a b c : string) : (a ++ b) ++ c = a ++ (b ++ c).
Proof. induction a as [|x a IH]; simpl; [reflexivity | rewrite IH; reflexivity]. Qed.

Lemma str_app_nil_r (a : string) : a ++ EmptyString = a.
Proof. induction a as [|x a IH]; simpl; [reflexivity | rewrite IH; reflexivity]. Qed.

Lemma str_forall_app (p : ascii -> bool) (a b : string) :
  str_forall p (a ++ b) = str_forall p a && str_forall p b.
Proof. induction a as [|x a IH]; simpl; [reflexivity | rewrite IH, andb_assoc; reflexivity]. Qed.

Lemma str_forall_impl (p q : ascii -> bool) (s : string) :
  (forall c, p c = true -> q c = true) -> str_forall p s = true -> str_forall q s = true.
Proof.
  intros Hpq. induction s as [|c s IH]; simpl; [reflexivity |].
  intros H. apply andb_prop in H as [H1 H2]. rewrite (Hpq c H1), (IH H2). reflexivity.
Qed.

Lemma str_forall_all (p : ascii -> bool) (s : string) :
  (forall c, p c = true) -> str_forall p s = true.
Proof. intros H. induction s as [|c s IH]; simpl; [reflexivity | rewrite H, IH; reflexivity]. Qed.

Lemma str_forall_join (p : ascii -> bool) (sep : string) (ws : list string) :
  str_forall p sep = true -> Forall (fun w => str_forall p w = true) ws ->
  str_forall p (join sep ws) = true.
Proof.
  intros Hs. induction ws as [|w ws IH]; intros Hw; [reflexivity |].
  inversion Hw as [|? ? Hw1 Hw2]; subst.
  destruct ws as [|w' ws']; [exact Hw1 |].
  change (join sep (w :: w' :: ws')) with (w ++ sep ++ join sep (w' :: ws')).
  rewrite !str_forall_app, Hw1, Hs, (IH Hw2). reflexivity.
Qed.

Lemma split_go_app (w s cur : string) :
  str_forall (fun c => negb (is_space c)) w = true ->
  split_go cur (w ++ s) = split_go (cur ++ w) s.
Proof.
  revert cur. induction w as [|c w IH]; intros cur H; simpl.
  - rewrite str_app_nil_r. reflexivity.
  - simpl in H. apply andb_prop in H as [H1 H2]. apply negb_true_iff in H1.
    rewrite H1, (IH _ H2), str_app_assoc. reflexivity.
Qed.

Lemma split_join (ws : list string) :
  Forall (fun w => w <> EmptyString /\ str_forall (fun c => negb (is_space c)) w = true) ws ->
  split_ws (join " " ws) = ws.
Proof.
  unfold split_ws. induction ws as [|w ws IH]; intros H; [reflexivity |].
  inversion H as [|? ? [Hne Hw] H2]; subst.
  destruct ws as [|w' ws'].
  - simpl join. rewrite <- (str_app_nil_r w) at 1. rewrite (split_go_app _ _ _ Hw). simpl.
    destruct w; [contradiction | reflexivity].
  - change (join " " (w :: w' :: ws')) with (w ++ " " ++ join " " (w' :: ws')).
    rewrite (split_go_app _ _ _ Hw). rewrite <- (IH H2) at 2.
    remember (join " " (w' :: ws')) as J. simpl.
    destruct w; [contradiction | reflexivity].
Qed.

Lemma split_go_words (p : ascii -> bool) (s : string) :
  forall cur w, str_forall p cur = true -> str_forall (fun c => is_space c || p c) s = true ->
  In w (split_go cur s) -> w <> EmptyString /\ str_forall p w = true.
Proof.
  induction s as [|c s IH]; intros cur w Hc Hs Hin; simpl in *.
  - destruct cur as [|x cur]; [contradiction |].
    destruct Hin as [<-|[]]. split; [discriminate | exact Hc].
  - apply andb_prop in Hs as [H1 H2]. destruct (is_space c) eqn:Ec.
    + destruct cur as [|x cur].
      * exact (IH EmptyString _ eq_refl H2 Hin).
      * destruct Hin as [<-|Hin]; [split; [discriminate | exact Hc] |].
        exact (IH EmptyString _ eq_refl H2 Hin).
    + simpl in H1. apply (IH (cur ++ String c EmptyString) w); [| exact H2 | exact Hin].
      rewrite str_forall_app, Hc. simpl. rewrite H1. reflexivity.
Qed.

Lemma replace_char_id (old new : ascii) (s : string) :
  str_forall (fun c => negb (Ascii.eqb c old)) s = true -> replace_char old new s = s.
Proof.
  induction s as [|c s IH]; simpl; [reflexivity |].
  intros H. apply andb_prop in H as [H1 H2]. apply negb_true_iff in H1.
  rewrite H1, (IH H2). reflexivity.
Qed.

Lemma replace_char_comma (k : string) :
  str_forall (fun c => is_space c || (negb (is_space c) && negb (Ascii.eqb c ",")))
    (replace_char "," " " k) = true.
Proof.
  induction k as [|c k IH]; simpl; [reflexivity |].
  rewrite IH. destruct (Ascii.eqb c ",") eqn:E; [reflexivity |].
  rewrite E. destruct (is_space c); reflexivity.
Qed.

(** The words of [k.replace(',', ' ').split()]. *)
Lemma keyword_words (k w : string) :
  In w (split_ws (replace_char "," " " k)) ->
  w <> EmptyString /\ str_forall (fun c => negb (is_space c) && negb (Ascii.eqb c ",")) w = true.
Proof. apply split_go_words; [reflexivity | apply replace_char_comma]. Qed.

(** The keywords normalisation of the Trac server's [create_ticket] and
    [update_ticket] is idempotent, and its result contains no comma. *)
Theorem trac_keywords_normalized :
  forall k, Trac.normalize_keywords (Trac.normalize_keywords k) = Trac.normalize_keywords k /\
  str_forall (fun c => negb (Ascii.eqb c ",")) (Trac.normalize_keywords k) = true.
Proof.
  intros k. unfold Trac.normalize_keywords at 1 3 4.
  set (ws := split_ws (replace_char "," " " k)).
  assert (Hw : forall w, In w ws -> w <> EmptyString /\
            str_forall (fun c => negb (is_space c) && negb (Ascii.eqb c ",")) w = true)
    by (intros w; apply keyword_words).
  assert (Hc : str_forall (fun c => negb (Ascii.eqb c ",")) (join " " ws) = true).
  { apply str_forall_join; [reflexivity |]. apply List.Forall_forall. intros w Hin.
    apply (str_forall_impl _ _ _ (fun c H => proj2 (andb_prop _ _ H)) (proj2 (Hw w Hin))). }
  split; [| exact Hc].
  unfold Trac.normalize_keywords. rewrite (replace_char_id _ _ _ Hc).
  rewrite split_join; [reflexivity |]. apply List.Forall_forall. intros w Hin.
  destruct (Hw w Hin) as [Hne Hf]. split; [exact Hne |].
  apply (str_forall_impl _ _ _ (fun c H => proj1 (andb_prop _ _ H)) Hf).
Qed.

Lemma title_words (t w : string) :
  In w (split_ws t) -> w <> EmptyString /\ str_forall (fun c => negb (is_space c)) w = true.
Proof.
  apply split_go_words; [reflexivity |].
  apply str_forall_all. intros c. destruct (is_space c); reflexivity.
Qed.

Lemma filter_neg_twice {A} (f : A -> bool) (l : list A) :
  List.filter f (List.filter (fun x => negb (f x)) l) = [] /\
  List.filter (fun x => negb (f x)) (List.filter (fun x => negb (f x)) l) =
    List.filter (fun x => negb (f x)) l.
Proof.
  induction l as [|x l [IH1 IH2]]; simpl; [auto |].
  destruct (f x) eqn:E; simpl; [auto |]. rewrite E. simpl. rewrite IH1, IH2. auto.
Qed.

(** The title parsing of create_vikunja_task.py's [main] removes every
    [*label] word: parsing the clean title again finds no label and gives
    the same title back. The label names it takes contain no whitespace. *)
Theorem vikunja_title_parse_stable :
  forall title,
  VikunjaCli.parse_title (snd (VikunjaCli.parse_title title)) = ([], snd (VikunjaCli.parse_title title)) /\
  Forall (fun l => str_forall (fun c => negb (is_space c)) l = true) (fst (VikunjaCli.parse_title title)).
Proof.
  intros title. unfold VikunjaCli.parse_title at 2 3 4. cbv zeta. simpl fst; simpl snd.
  set (words := split_ws title).
  assert (Hw : forall w, In w words -> w <> EmptyString /\ str_forall (fun c => negb (is_space c)) w = true)
    by (intros w; apply title_words).
  split.
  - unfold VikunjaCli.parse_title. cbv zeta.
    rewrite split_join.
    + destruct (filter_neg_twice (starts_with "*") words) as [E1 E2]. rewrite E1, E2. reflexivity.
    + apply List.Forall_forall. intros w Hin. apply filter_In in Hin as [Hin _]. exact (Hw w Hin).
  - apply List.Forall_forall. intros l Hin. apply in_map_iff in Hin as [w [<- Hin]].
    apply filter_In in Hin as [Hin _]. destruct (Hw w Hin) as [_ Hf].
    destruct w as [|c w]; [reflexivity |]. simpl in Hf. apply andb_prop in Hf as [_ Hf]. exact Hf.
Qed.

Lemma contains_cons (o : string) (c : ascii) (s : string) :
  contains o (String c s) = String.prefix o (String c s) || contains o s.
Proof. reflexivity. Qed.

Lemma contains_empty_needle (s : string) : contains EmptyString s = true.
Proof. destruct s; reflexivity. Qed.

Lemma str_app_single (x : ascii) (r : string) : String x EmptyString ++ r = String x r.
Proof. reflexivity. Qed.

Lemma prefix_take (o : string) : forall m t,
  String.prefix o (substring 0%nat m t) = true -> String.prefix o t = true.
Proof.
  induction o as [|a o IH]; intros m t H; [destruct t; reflexivity |].
  destruct m as [|m], t as [|b t]; simpl in H; try discriminate.
  simpl. destruct (ascii_dec a b); [exact (IH _ _ H) | discriminate].
Qed.

Lemma contains_substring (o s : string) : forall n m,
  contains o (substring n m s) = true -> contains o s = true.
Proof.
  induction s as [|c s IH]; intros n m H.
  - destruct n, m; exact H.
  - destruct n as [|n].
    + destruct m as [|m].
      * change (substring 0%nat 0%nat (String c s)) with EmptyString in H.
        destruct o; [apply contains_empty_needle | discriminate].
      * change (substring 0%nat (S m) (String c s)) with (String c (substring 0%nat m s)) in H.
        rewrite contains_cons in H |- *. apply orb_true_iff in H as [H|H].
        -- apply orb_true_iff. left. apply (prefix_take o (S m)). exact H.
        -- apply orb_true_iff. right. exact (IH 0%nat m H).
    + change (substring (S n) m (String c s)) with (substring n m s) in H.
      rewrite contains_cons, (IH _ _ H), orb_true_r. reflexivity.
Qed.

Lemma substring_len (s : string) : forall n m,
  (String.length (substring n m s) <= String.length s - n)%nat.
Proof.
  induction s as [|c s IH]; intros n m; destruct n as [|n], m as [|m]; simpl; try lia.
  - specialize (IH 0%nat m). lia.
  - specialize (IH n 0%nat). lia.
  - specialize (IH n (S m)). lia.
Qed.

Lemma replace_go_cons (f : nat) (old new : string) (c : ascii) (s : string) :
  replace_go (S f) old new (String c s) =
  if String.prefix old (String c s)
  then new ++ replace_go f old new (substring (String.length old) (S (String.length s)) (String c s))
  else String c (replace_go f old new s).
Proof. reflexivity. Qed.

Lemma replace_nonempty (old new s : string) :
  old <> EmptyString -> replace old new s = replace_go (String.length s) old new s.
Proof. destruct old; [contradiction | reflexivity]. Qed.

Lemma no_char_head (nl a : ascii) (o : string) :
  str_forall (fun c => negb (Ascii.eqb c nl)) (String a o) = true ->
  a <> nl /\ str_forall (fun c => negb (Ascii.eqb c nl)) o = true.
Proof.
  simpl. intros H. apply andb_prop in H as [H1 H2]. split; [| exact H2].
  intros ->. rewrite Ascii.eqb_refl in H1. discriminate.
Qed.

(** A prefix free of the replacement character, read in the result of a
    [replace] by that one character, is a prefix of the input. *)
Lemma prefix_replace_go (f : nat) : forall old nl s o,
  str_forall (fun c => negb (Ascii.eqb c nl)) o = true ->
  String.prefix o (replace_go f old (String nl EmptyString) s) = true -> String.prefix o s = true.
Proof.
  induction f as [|f IH]; intros old nl s o Ho H; [exact H |].
  destruct s as [|c s]; [exact H |].
  rewrite replace_go_cons in H. destruct (String.prefix old (String c s)).
  - rewrite str_app_single in H. destruct o as [|a o]; [reflexivity |].
    destruct (no_char_head _ _ _ Ho) as [Ha _]. simpl in H.
    destruct (ascii_dec a nl); [contradiction | discriminate].
  - destruct o as [|a o]; [reflexivity |]. destruct (no_char_head _ _ _ Ho) as [_ Ho'].
    simpl in H. destruct (ascii_dec a c) as [->|]; [| discriminate].
    simpl. destruct (ascii_dec c c) as [_|n]; [| contradiction].
    exact (IH old nl s o Ho' H).
Qed.

(** [s.replace(old, nl)] leaves no [old] behind, when the one-character
    [nl] does not occur in [old]. *)
Lemma replace_go_removes (f : nat) : forall old nl s,
  old <> EmptyString -> str_forall (fun c => negb (Ascii.eqb c nl)) old = true ->
  (String.length s <= f)%nat ->
  contains old (replace_go f old (String nl EmptyString) s) = false.
Proof.
  induction f as [|f IH]; intros old nl s Hne Ho Hl.
  - destruct s; simpl in Hl; [| lia]. destruct old; [contradiction | reflexivity].
  - destruct s as [|c s]; [destruct old; [contradiction | reflexivity] |].
    rewrite replace_go_cons. destruct (String.prefix old (String c s)) eqn:P.
    + rewrite str_app_single, contains_cons. apply orb_false_iff. split.
      * destruct old as [|a o]; [contradiction |]. destruct (no_char_head _ _ _ Ho) as [Ha _].
        simpl. destruct (ascii_dec a nl); [contradiction | reflexivity].
      * apply IH; [exact Hne | exact Ho |].
        pose proof (substring_len (String c s) (String.length old) (S (String.length s))) as L.
        destruct old as [|a o]; [contradiction |]. simpl in Hl, L |- *. lia.
    + rewrite contains_cons. apply orb_false_iff. split; [| apply IH; [exact Hne | exact Ho | simpl in Hl; lia]].
      destruct (String.prefix old (String c (replace_go f old (String nl EmptyString) s))) eqn:P2;
        [| reflexivity]. exfalso.
      destruct old as [|a o]; [contradiction |]. destruct (no_char_head _ _ _ Ho) as [_ Ho'].
      simpl in P2. destruct (ascii_dec a c) as [->|]; [| discriminate].
      apply (prefix_replace_go f _ nl s o Ho') in P2.
      simpl in P. destruct (ascii_dec c c) as [_|n]; [congruence | contradiction].
Qed.

(** [s.replace(old, nl)] creates no occurrence of a text free of [nl]. *)
Lemma replace_go_keeps_absent (f : nat) : forall old nl s o,
  str_forall (fun c => negb (Ascii.eqb c nl)) o = true ->
  contains o (replace_go f old (String nl EmptyString) s) = true -> contains o s = true.
Proof.
  induction f as [|f IH]; intros old nl s o Ho H; [exact H |].
  destruct s as [|c s]; [exact H |].
  rewrite replace_go_cons in H. destruct (String.prefix old (String c s)).
  - rewrite str_app_single, contains_cons in H. apply orb_true_iff in H as [H|H].
    + destruct o as [|a o]; [apply contains_empty_needle |].
      destruct (no_char_head _ _ _ Ho) as [Ha _]. simpl in H.
      destruct (ascii_dec a nl); [contradiction | discriminate].
    + apply (contains_substring o (String c s) (String.length old) (S (String.length s))).
      exact (IH old nl _ o Ho H).
  - rewrite contains_cons in H |- *. apply orb_true_iff in H as [H|H]; apply orb_true_iff.
    + left. destruct o as [|a o]; [reflexivity |]. destruct (no_char_head _ _ _ Ho) as [_ Ho'].
      simpl in H. destruct (ascii_dec a c) as [->|]; [| discriminate].
      simpl. destruct (ascii_dec c c) as [_|n]; [| contradiction].
      exact (prefix_replace_go f old nl s o Ho' H).
    + right. exact (IH old nl s o Ho H).
Qed.

(** create_trac_ticket.py sends a description in which no literal [\n]
    and no [&#10;] is left: both have become newlines. *)
Theorem trac_cli_description_unescaped :
  forall args, exists d attrs,
  Trac.cli_main args = [Trac.TicketCreate (Trac.a_summary args) d attrs true] /\
  contains "\n" d = false /\ contains "&#10;" d = false.
Proof.
  intros args. eexists _, _. split; [reflexivity |].
  rewrite (replace_nonempty "&#10;"), (replace_nonempty "\n"); try discriminate.
  split.
  - destruct (contains "\n" _) eqn:E; [| reflexivity].
    apply replace_go_keeps_absent in E; [| reflexivity].
    rewrite replace_go_removes in E; [discriminate | discriminate | reflexivity | lia].
  - apply replace_go_removes; [discriminate | reflexivity | lia].
Qed.

Lemma rev_str_app (a b : string) : rev_str (a ++ b) = rev_str b ++ rev_str a.
Proof.
  induction a as [|c a IH]; simpl.
  - rewrite str_app_nil_r. reflexivity.
  - rewrite IH, str_app_assoc. reflexivity.
Qed.

Lemma rev_str_involutive (s : string) : rev_str (rev_str s) = s.
Proof. induction s as [|c s IH]; simpl; [reflexivity | rewrite rev_str_app, IH; reflexivity]. Qed.

(** [s.strip(chars)] leaves [s] alone when neither end is in [chars]. *)
Lemma strip_by_id (p : ascii -> bool) (s : string) :
  (forall c s', s = String c s' -> p c = false) ->
  (forall c s', rev_str s = String c s' -> p c = false) ->
  strip_by p s = s.
Proof.
  intros H1 H2. unfold strip_by.
  assert (E1 : lstrip_by p s = s).
  { destruct s as [|c s']; [reflexivity |]. simpl. rewrite (H1 c s' eq_refl). reflexivity. }
  rewrite E1.
  assert (E2 : lstrip_by p (rev_str s) = rev_str s).
  { destruct (rev_str s) as [|c s'] eqn:E; [reflexivity |]. simpl. rewrite (H2 c s' eq_refl). reflexivity. }
  rewrite E2. apply rev_str_involutive.
Qed.

Lemma prefix_app (a b : string) : String.prefix a (a ++ b) = true.
Proof.
  induction a as [|c a IH]; simpl; [destruct b; reflexivity |].
  destruct (ascii_dec c c); [exact IH | contradiction].
Qed.

Lemma find_app_skip {A} (f : A -> bool) (pre post : list A) (x : A) :
  Forall (fun y => f y = false) pre -> f x = true ->
  List.find f (app pre (x :: post)) = Some x.
Proof.
  induction pre as [|y pre IH]; intros Hp Hx; simpl; [rewrite Hx; reflexivity |].
  inversion Hp as [|? ? Hy Hp']; subst. rewrite Hy. exact (IH Hp' Hx).
Qed.

Lemma lstrip_stop (p : ascii -> bool) (c : ascii) (s : string) :
  p c = false -> lstrip_by p (String c s) = String c s.
Proof. intros H. simpl. rewrite H. reflexivity. Qed.

Lemma lstrip_step (p : ascii -> bool) (c : ascii) (s : string) :
  p c = true -> lstrip_by p (String c s) = lstrip_by p s.
Proof. intros H. simpl. rewrite H. reflexivity. Qed.

(** The value [get_trac_password] reads from a quoted [export] line. *)
Lemma quoted_value (q : ascii) (pw : string) :
  is_space q = false ->
  (forall c s, pw = String c s -> c <> q) -> (forall c s, rev_str pw = String c s -> c <> q) ->
  strip_by (fun c => Ascii.eqb c q) (strip (String q (pw ++ String q (String "010" EmptyString)))) = pw.
Proof.
  intros Hqs H1 H2. unfold strip, strip_by at 2.
  rewrite (lstrip_stop _ _ _ Hqs).
  assert (R : rev_str (String q (pw ++ String q (String "010" EmptyString))) =
              String "010" (String q (rev_str pw ++ String q EmptyString))).
  { simpl. rewrite rev_str_app. reflexivity. }
  rewrite R, lstrip_step by reflexivity. rewrite (lstrip_stop _ _ _ Hqs).
  assert (R2 : rev_str (String q (rev_str pw ++ String q EmptyString)) = String q (pw ++ String q EmptyString)).
  { simpl. rewrite rev_str_app, rev_str_involutive. reflexivity. }
  rewrite R2. unfold strip_by. rewrite lstrip_step by apply Ascii.eqb_refl.
  destruct pw as [|c s] eqn:Epw.
  - simpl. rewrite Ascii.eqb_refl. reflexivity.
  - rewrite <- Epw. rewrite <- Epw in H1, H2.
    assert (L : lstrip_by (fun c0 => Ascii.eqb c0 q) (pw ++ String q EmptyString) = pw ++ String q EmptyString).
    { rewrite Epw. simpl. destruct (Ascii.eqb_spec c q) as [->|_]; [exfalso; exact (H1 q s Epw eq_refl) | reflexivity]. }
    rewrite L, rev_str_app. change (rev_str (String q EmptyString)) with (String q EmptyString).
    rewrite str_app_single, lstrip_step by apply Ascii.eqb_refl.
    assert (L2 : lstrip_by (fun c0 => Ascii.eqb c0 q) (rev_str pw) = rev_str pw).
    { destruct (rev_str pw) as [|c' s'] eqn:Er; [reflexivity |]. simpl.
      destruct (Ascii.eqb_spec c' q) as [->|_]; [exfalso; exact (H2 q s' eq_refl eq_refl) | reflexivity]. }
    rewrite L2. apply rev_str_involutive.
Qed.

(** server.py's [get_trac_password] uses a non-empty [TRAC_PASSWORD]
    from the environment before anything else. Otherwise it reads the
    first [~/.bashrc] line containing [export TRAC_PASSWORD=]; a line
    [export TRAC_PASSWORD="pw"] gives back [pw] exactly, whatever its
    spaces and [=] signs, as long as [pw] neither starts nor ends with a
    quote character. *)
Theorem trac_password_lookup :
  (forall env bashrc, truthy env = true -> TracAuth.get_trac_password env bashrc = env) /\
  (forall env pre post pw,
     truthy env = false ->
     Forall (fun l => contains TracAuth.export_key l = false) pre ->
     (forall c s, pw = String c s -> c <> "'"%char /\ c <> ascii_of_nat 34) ->
     (forall c s, rev_str pw = String c s -> c <> "'"%char /\ c <> ascii_of_nat 34) ->
     TracAuth.get_trac_password env
       (Some (app pre ((TracAuth.export_key ++ String (ascii_of_nat 34) (pw ++
                        String (ascii_of_nat 34) (String "010" EmptyString))) :: post)))
     = Some pw).
Proof.
  split.
  - intros env b H. unfold TracAuth.get_trac_password. rewrite H. reflexivity.
  - intros env pre post pw He Hpre H1 H2. unfold TracAuth.get_trac_password. rewrite He.
    rewrite find_app_skip; [| exact Hpre |].
    2: { destruct (TracAuth.export_key ++ _) eqn:E; [discriminate |].
         rewrite contains_cons, <- E, prefix_app. reflexivity. }
    f_equal. simpl after_first.
    rewrite quoted_value; [| reflexivity | intros c s E; exact (proj2 (H1 c s E)) |
                           intros c s E; exact (proj2 (H2 c s E))].
    apply strip_by_id.
    + intros c s E. destruct (Ascii.eqb_spec c "'"); [| reflexivity]. exfalso. exact (proj1 (H1 c s E) e).
    + intros c s E. destruct (Ascii.eqb_spec c "'"); [| reflexivity]. exfalso. exact (proj1 (H2 c s E) e).
Qed.

Lemma hex_digit_code (k : nat) :
  (k < 16)%nat -> nat_of_ascii (TracAuth.hex_digit k) = (if (k <? 10)%nat then 48 + k else 55 + k)%nat.
Proof.
  intros Hk. unfold TracAuth.hex_digit. apply nat_ascii_embedding.
  destruct (Nat.ltb_spec k 10); lia.
Qed.

Lemma hex_digit_inj (a b : nat) :
  (a < 16)%nat -> (b < 16)%nat -> TracAuth.hex_digit a = TracAuth.hex_digit b -> a = b.
Proof.
  intros Ha Hb H. apply (f_equal nat_of_ascii) in H.
  rewrite (hex_digit_code _ Ha), (hex_digit_code _ Hb) in H.
  destruct (Nat.ltb_spec a 10), (Nat.ltb_spec b 10); lia.
Qed.

Lemma hex_digit_unreserved (k : nat) : (k < 16)%nat -> TracAuth.is_unreserved (TracAuth.hex_digit k) = true.
Proof.
  intros Hk. unfold TracAuth.is_unreserved. rewrite (hex_digit_code _ Hk).
  destruct (Nat.ltb_spec k 10).
  - assert (E : ((48 <=? 48 + k) && (48 + k <=? 57))%nat = true)
      by (apply andb_true_iff; split; apply Nat.leb_le; lia).
    rewrite E. reflexivity.
  - assert (E : ((65 <=? 55 + k) && (55 + k <=? 90))%nat = true)
      by (apply andb_true_iff; split; apply Nat.leb_le; lia).
    rewrite E, orb_true_r. reflexivity.
Qed.

Lemma ascii_div_mod (c : ascii) :
  (nat_of_ascii c / 16 < 16)%nat /\ (nat_of_ascii c mod 16 < 16)%nat.
Proof.
  pose proof (nat_ascii_bounded c). split.
  - apply Nat.Div0.div_lt_upper_bound. lia.
  - apply Nat.mod_upper_bound. lia.
Qed.

Lemma quote_chars (s : string) :
  str_forall (fun c => TracAuth.is_unreserved c || Ascii.eqb c "%") (TracAuth.quote s) = true.
Proof.
  induction s as [|c s IH]; [reflexivity |].
  simpl TracAuth.quote. rewrite str_forall_app, IH, andb_true_r.
  unfold TracAuth.quote_char. destruct (TracAuth.is_unreserved c) eqn:U.
  - simpl. rewrite U. reflexivity.
  - destruct (ascii_div_mod c) as [H1 H2]. cbn [str_forall].
    rewrite (hex_digit_unreserved _ H1), (hex_digit_unreserved _ H2). reflexivity.
Qed.

Lemma quote_char_cons (c : ascii) : exists x r, TracAuth.quote_char c = String x r.
Proof. unfold TracAuth.quote_char. destruct (TracAuth.is_unreserved c); eauto. Qed.

Lemma string_cons_inj (a b : ascii) (x y : string) : String a x = String b y -> a = b /\ x = y.
Proof. intros H. injection H as -> ->. auto. Qed.

Lemma quote_inj (s1 : string) : forall s2, TracAuth.quote s1 = TracAuth.quote s2 -> s1 = s2.
Proof.
  induction s1 as [|c1 s1 IH]; intros [|c2 s2] H; simpl in H.
  - reflexivity.
  - destruct (quote_char_cons c2) as [x [r E]]. rewrite E in H. discriminate.
  - destruct (quote_char_cons c1) as [x [r E]]. rewrite E in H. discriminate.
  - unfold TracAuth.quote_char in H.
    destruct (TracAuth.is_unreserved c1) eqn:U1, (TracAuth.is_unreserved c2) eqn:U2;
      cbn [String.append] in H.
    + injection H as -> H. f_equal. exact (IH _ H).
    + injection H as -> H. discriminate U1.
    + injection H as <- H. discriminate U2.
    + apply string_cons_inj in H as [_ H]. apply string_cons_inj in H as [Hh H].
      apply string_cons_inj in H as [Hl H]. destruct (ascii_div_mod c1) as [A1 B1], (ascii_div_mod c2) as [A2 B2].
      apply hex_digit_inj in Hh; [| assumption | assumption].
      apply hex_digit_inj in Hl; [| assumption | assumption].
      assert (E : nat_of_ascii c1 = nat_of_ascii c2).
      { pose proof (Nat.div_mod_eq (nat_of_ascii c1) 16). pose proof (Nat.div_mod_eq (nat_of_ascii c2) 16). lia. }
      rewrite <- (ascii_nat_embedding c1), <- (ascii_nat_embedding c2), E.
      f_equal. exact (IH _ H).
Qed.

(** server.py's [get_proxy] raises when [TRAC_PASSWORD] is unset or
    empty; otherwise it connects to
    [http://USER:Q@trac.home.arpa/login/xmlrpc], where [Q = quote(pw,
    safe='')] holds only unreserved characters and [%] (no [@], [:] or
    [/] that could move the host), and distinct passwords give distinct
    [Q]. *)
Theorem trac_proxy_url :
  forall user pw,
  TracAuth.get_proxy user None = None /\ TracAuth.get_proxy user (Some EmptyString) = None /\
  (pw <> EmptyString ->
   TracAuth.get_proxy user (Some pw) =
     Some ("http://" ++ user ++ ":" ++ TracAuth.quote pw ++ "@" ++ "trac.home.arpa/login/xmlrpc")) /\
  str_forall (fun c => TracAuth.is_unreserved c || Ascii.eqb c "%") (TracAuth.quote pw) = true /\
  (forall pw', TracAuth.quote pw' = TracAuth.quote pw -> pw' = pw).
Proof.
  intros user pw. split; [reflexivity |]. split; [reflexivity |]. split.
  - intros Hne. unfold TracAuth.get_proxy.
    assert (T : truthy (Some pw) = true).
    { unfold truthy. destruct pw; [contradiction | reflexivity]. }
    rewrite T. f_equal. cbv [TracAuth.replace1 TracAuth.TRAC_URL].
    simpl String.prefix. cbv match. rewrite !str_app_assoc. reflexivity.
  - split; [apply quote_chars |]. intros pw' H. exact (quote_inj _ _ H).
Qed.

Lemma split_char_go_plain (sep : ascii) (w : string) : forall cur,
  str_forall (fun c => negb (Ascii.eqb c sep)) w = true ->
  split_char_go sep cur w = [cur ++ w].
Proof.
  induction w as [|c w IH]; intros cur H.
  - simpl. rewrite str_app_nil_r. reflexivity.
  - simpl in H. apply andb_prop in H as [H1 H2]. apply negb_true_iff in H1.
    simpl. rewrite H1, (IH _ H2), str_app_assoc. reflexivity.
Qed.

Lemma split_char_go_sep (sep : ascii) (w rest : string) : forall cur,
  str_forall (fun c => negb (Ascii.eqb c sep)) w = true ->
  split_char_go sep cur (w ++ String sep rest) = (cur ++ w) :: split_char_go sep EmptyString rest.
Proof.
  induction w as [|c w IH]; intros cur H.
  - simpl. rewrite Ascii.eqb_refl, str_app_nil_r. reflexivity.
  - simpl in H. apply andb_prop in H as [H1 H2]. apply negb_true_iff in H1.
    simpl. rewrite H1, (IH _ H2), str_app_assoc. reflexivity.
Qed.

(** create_trac_ticket.py and update_trac_ticket.py put the password
    into [TRAC_URL] unencoded and print [TRAC_URL.split('@')[1]] as the
    server: with no [@] anywhere this is the host and path, but a
    password [p1@p2] makes the script print [p2], the part of the
    password after its [@]. *)
Theorem trac_cli_connect_message :
  forall user p1 p2 host path,
  Forall (fun s => str_forall (fun c => negb (Ascii.eqb c "@")) s = true) [user; p1; p2; host; path] ->
  TracAuth.connect_msg (TracAuth.cli_trac_url user p1 host path) =
    Some ("Connecting to Trac server at " ++ host ++ path ++ "...") /\
  TracAuth.connect_msg (TracAuth.cli_trac_url user (p1 ++ "@" ++ p2) host path) =
    Some ("Connecting to Trac server at " ++ p2 ++ "...").
Proof.
  intros user p1 p2 host path H.
  inversion H as [|? ? Hu H']; subst. inversion H' as [|? ? H1 H'']; subst.
  inversion H'' as [|? ? H2 H3]; subst. inversion H3 as [|? ? Hh H4]; subst.
  inversion H4 as [|? ? Hp _]; subst.
  assert (Hpre : str_forall (fun c => negb (Ascii.eqb c "@")) ("http://" ++ user ++ ":" ++ p1) = true).
  { rewrite !str_forall_app, Hu, H1. reflexivity. }
  assert (Hhp : str_forall (fun c => negb (Ascii.eqb c "@")) (host ++ path) = true).
  { rewrite str_forall_app, Hh, Hp. reflexivity. }
  unfold TracAuth.connect_msg, TracAuth.cli_trac_url, split_char. split.
  - replace ("http://" ++ user ++ ":" ++ p1 ++ "@" ++ host ++ path)
      with (("http://" ++ user ++ ":" ++ p1) ++ String "@" (host ++ path))
      by (rewrite !str_app_assoc; reflexivity).
    rewrite (split_char_go_sep _ _ _ _ Hpre), (split_char_go_plain _ _ _ Hhp).
    simpl nth_error. cbv iota beta. rewrite str_app_assoc. reflexivity.
  - replace ("http://" ++ user ++ ":" ++ (p1 ++ "@" ++ p2) ++ "@" ++ host ++ path)
      with (("http://" ++ user ++ ":" ++ p1) ++ String "@" (p2 ++ String "@" (host ++ path)))
      by (rewrite !str_app_assoc; reflexivity).
    rewrite (split_char_go_sep _ _ _ _ Hpre), (split_char_go_sep _ _ _ _ H2). reflexivity.
Qed.

Ltac case_str :=
  match goal with
  | |- context [String.eqb ?x EmptyString] =>
      is_var x; let E := fresh in
      destruct (String.eqb x EmptyString) eqn:E; [apply String.eqb_eq in E; subst x |]
  | |- context [String.eqb ?x ?y] => is_var x; let E := fresh in destruct (String.eqb x y) eqn:E
  | |- context [Trac.mem ?x ?y] => let E := fresh in destruct (Trac.mem x y) eqn:E
  end.

Ltac split_bools :=
  repeat match goal with
         | |- context [if ?b then _ else _] => destruct b eqn:?
         | H : context [if ?b then _ else _] |- _ => destruct b eqn:?
         end.

(** The body of server.py's [update_ticket] when every call answers: it
    fetches the valid components only when a (non-empty) component is
    given, and the valid priorities only when a priority is given. An
    invalid component returns its error before the priorities are
    fetched; an invalid priority returns its error; in both cases no
    [ticket.update] is sent. Otherwise exactly one [ticket.update] is
    sent, last, with the ticket id, comment and author. *)
Lemma update_ticket_body_validation :
  forall t id cm comp kw st res au act pr,
  (valid_opt comp (Trac.valid_components t) && valid_opt pr (Trac.valid_priorities t) = true ->
   exists attrs, Trac.update_ticket t id cm comp kw st res au act pr =
     ("Successfully updated ticket #" ++ z_to_str id ++ ".",
      app (if truthy comp then [Trac.ComponentGetAll] else [])
        (app (if truthy pr then [Trac.PriorityGetAll] else [])
           [Trac.TicketUpdate id cm attrs true au]))) /\
  (valid_opt comp (Trac.valid_components t) = false -> exists c, comp = Some c /\
   Trac.update_ticket t id cm comp kw st res au act pr =
     (Trac.invalid_component_msg c (Trac.valid_components t), [Trac.ComponentGetAll])) /\
  (valid_opt comp (Trac.valid_components t) = true -> valid_opt pr (Trac.valid_priorities t) = false ->
   exists p, pr = Some p /\
   Trac.update_ticket t id cm comp kw st res au act pr =
     (Trac.invalid_priority_msg p (Trac.valid_priorities t),
      app (if truthy comp then [Trac.ComponentGetAll] else []) [Trac.PriorityGetAll])).
Proof.
  intros t id cm comp kw st res au act pr.
  unfold Trac.update_ticket, valid_opt.
  destruct comp as [c|], pr as [p|]; unfold truthy; split_bools; simpl;
    (split; [| split]); intros; try discriminate; eauto.
Qed.

Lemma first_fault_none (fault : Trac.xcall -> option string) (cs : list Trac.xcall) :
  (forall c, In c cs -> fault c = None) -> TracAuth.first_fault fault cs = None.
Proof.
  induction cs as [|c cs IH]; intros H; simpl; [reflexivity |].
  rewrite (H c (or_introl eq_refl)), IH; [reflexivity |].
  intros x Hx. apply H. right. exact Hx.
Qed.

Lemma get_proxy_none (user : string) (pw : option string) :
  truthy pw = false -> TracAuth.get_proxy user pw = None.
Proof. destruct pw as [p|]; unfold TracAuth.get_proxy; [intros H; rewrite H |]; reflexivity. Qed.

Lemma get_proxy_some (user : string) (pw : option string) :
  truthy pw = true -> exists u, TracAuth.get_proxy user pw = Some u.
Proof. destruct pw as [p|]; intros H; [unfold TracAuth.get_proxy; rewrite H; eexists; reflexivity | discriminate]. Qed.

Ltac in_list := simpl; repeat (first [left; reflexivity | right]).

(** server.py's [update_ticket] as the MCP tool runs it, inside its
    [try]/[except].  Without a password it makes no call and returns
    [Error updating ticket #ID: TRAC_PASSWORD is not set].  With one and
    every call answering, it returns what the body returns: for valid
    input the success message after the lookups and the one
    [ticket.update], otherwise the validation error.  If the
    [ticket.update] of a valid input raises (e.g. a Fault for a ticket
    that does not exist), it returns [Error updating ticket #ID: ...]
    with the exception text. *)
Theorem trac_update_ticket_outcomes :
  forall user pw fault t id cm comp kw st res au act pr,
  (truthy pw = false ->
   TracAuth.update_ticket_tool user pw fault t id cm comp kw st res au act pr =
     ("Error updating ticket #" ++ z_to_str id ++ ": " ++ "TRAC_PASSWORD is not set", [])) /\
  (truthy pw = true ->
   (forall c, In c (snd (Trac.update_ticket t id cm comp kw st res au act pr)) -> fault c = None) ->
   TracAuth.update_ticket_tool user pw fault t id cm comp kw st res au act pr =
     Trac.update_ticket t id cm comp kw st res au act pr) /\
  (truthy pw = true -> forall m,
   (forall c, In c (snd (Trac.update_ticket t id cm comp kw st res au act pr)) ->
      fault c = if Trac.is_mutation c then Some m else None) ->
   valid_opt comp (Trac.valid_components t) && valid_opt pr (Trac.valid_priorities t) = true ->
   TracAuth.update_ticket_tool user pw fault t id cm comp kw st res au act pr =
     ("Error updating ticket #" ++ z_to_str id ++ ": " ++ m,
      snd (Trac.update_ticket t id cm comp kw st res au act pr))) /\
  (valid_opt comp (Trac.valid_components t) && valid_opt pr (Trac.valid_priorities t) = true ->
   exists attrs, Trac.update_ticket t id cm comp kw st res au act pr =
     ("Successfully updated ticket #" ++ z_to_str id ++ ".",
      app (if truthy comp then [Trac.ComponentGetAll] else [])
        (app (if truthy pr then [Trac.PriorityGetAll] else [])
           [Trac.TicketUpdate id cm attrs true au]))) /\
  (valid_opt comp (Trac.valid_components t) = false -> exists c, comp = Some c /\
   Trac.update_ticket t id cm comp kw st res au act pr =
     (Trac.invalid_component_msg c (Trac.valid_components t), [Trac.ComponentGetAll])) /\
  (valid_opt comp (Trac.valid_components t) = true -> valid_opt pr (Trac.valid_priorities t) = false ->
   exists p, pr = Some p /\
   Trac.update_ticket t id cm comp kw st res au act pr =
     (Trac.invalid_priority_msg p (Trac.valid_priorities t),
      app (if truthy comp then [Trac.ComponentGetAll] else []) [Trac.PriorityGetAll])).
Proof.
  intros user pw fault t id cm comp kw st res au act pr.
  pose proof (update_ticket_body_validation t id cm comp kw st res au act pr) as V.
  split; [| split; [| split; [| exact V]]].
  - intros H. unfold TracAuth.update_ticket_tool. rewrite (get_proxy_none user pw H). reflexivity.
  - intros H Hf. unfold TracAuth.update_ticket_tool. destruct (get_proxy_some user pw H) as [u ->].
    revert Hf. destruct (Trac.update_ticket t id cm comp kw st res au act pr) as [msg cs].
    simpl. intros Hf. rewrite (first_fault_none fault cs Hf). reflexivity.
  - intros H m Hf Hv. unfold TracAuth.update_ticket_tool. destruct (get_proxy_some user pw H) as [u ->].
    destruct (proj1 V Hv) as [attrs E]. rewrite E in Hf. rewrite E.
    destruct (truthy comp), (truthy pr); simpl in Hf |- *;
      repeat (rewrite Hf by in_list); reflexivity.
Qed.

(** The fields [update_ticket] sends about the resolution: [resolution]
    is the given one, otherwise [fixed] when the status is set to
    [closed] without an action, otherwise absent; and
    [action_resolve_resolve_as] is set exactly when the action is
    [resolve] and a resolution is given. *)
Theorem trac_update_ticket_resolution :
  forall t id cm comp kw st res au act pr,
  valid_opt comp (Trac.valid_components t) && valid_opt pr (Trac.valid_priorities t) = true ->
  exists attrs,
  List.last (snd (Trac.update_ticket t id cm comp kw st res au act pr)) Trac.PriorityGetAll =
    Trac.TicketUpdate id cm attrs true au /\
  dict_get "resolution" attrs =
    (if truthy res then res
     else if opt_str_eqb st (Some "closed") && negb (truthy act) then Some "fixed" else None) /\
  dict_get "action_resolve_resolve_as" attrs =
    (if opt_str_eqb act (Some "resolve") && truthy res then res else None).
Proof.
  intros t id cm comp kw st res au act pr.
  unfold valid_opt, Trac.update_ticket, truthy, opt_str_eqb.
  destruct comp as [c|], kw as [k|], st as [s0|], res as [r0|], act as [a|], pr as [p|];
    simpl; repeat (case_str; simpl); intros Hv; try discriminate;
    eexists; (split; [reflexivity |]); simpl; split; reflexivity.
Qed.

Lemma resolve_loop_ev_ids (host tok : string) (lm : list (string * Vikunja.label))
    (cl : string -> option Vikunja.label) (names : list string) :
  snd (VikunjaCli.resolve_loop_ev host tok lm cl names) = Vikunja.resolve_loop lm cl names.
Proof.
  induction names as [|n names IH]; simpl; [reflexivity |].
  destruct (VikunjaCli.resolve_loop_ev host tok lm cl names) as [evs ids]. simpl in IH. subst ids.
  destruct (dict_get (lower n) lm); [reflexivity |]. destruct (cl n); reflexivity.
Qed.

Lemma resolve_loop_ev_events (host tok : string) (lm : list (string * Vikunja.label))
    (cl : string -> option Vikunja.label) (names : list string) :
  put_label_titles (fst (VikunjaCli.resolve_loop_ev host tok lm cl names)) =
    List.filter (fun n => match dict_get (lower n) lm with Some _ => false | None => true end) names /\
  List.filter is_get_labels (fst (VikunjaCli.resolve_loop_ev host tok lm cl names)) = [] /\
  forallb (fun e => negb (is_task_put_or_exit e)) (fst (VikunjaCli.resolve_loop_ev host tok lm cl names)) = true.
Proof.
  induction names as [|n names IH]; simpl; [auto |].
  destruct (VikunjaCli.resolve_loop_ev host tok lm cl names) as [evs ids]. simpl in IH |- *.
  destruct IH as [I1 [I2 I3]].
  destruct (dict_get (lower n) lm); simpl; [auto |].
  unfold put_label_titles in *. simpl. rewrite I1, I2, I3. auto.
Qed.

(** create_vikunja_task.py's [create_task] without a token (neither
    [--token] nor [VIKUNJA_API_TOKEN]) prints an error and exits with
    status 1 before any request. With a token it fetches the labels once
    if and only if labels were asked for, sends one label [PUT] for every
    label name whose lower-cased form is not an existing label (a name
    given twice is created twice, since created labels are not added to
    the map), and sends the task [PUT] once, last, carrying a [labels] key
    exactly when some label resolved. *)
Theorem vikunja_create_task_requests :
  forall title description project_id is_favorite host token_arg token_env labels
         existing create_label task_ok,
  (truthy token_arg = false -> truthy token_env = false ->
   VikunjaCli.create_task title description project_id is_favorite host token_arg token_env
     labels existing create_label task_ok = [VikunjaCli.VPrint VikunjaCli.missing_token_msg; VikunjaCli.VExit 1]) /\
  (forall tok, (if truthy token_arg then token_arg else token_env) = Some tok -> tok <> EmptyString ->
   exists pre,
   VikunjaCli.create_task title description project_id is_favorite host token_arg token_env
     labels existing create_label task_ok =
     app pre (VikunjaCli.VPutTask (host ++ "/api/v1/projects/" ++ z_to_str project_id ++ "/tasks") tok
                title description is_favorite
                (match Vikunja.resolve_labels existing create_label labels with
                 | [] => None | r => Some r end)
              :: (if task_ok then [] else [VikunjaCli.VExit 1])) /\
   List.filter is_get_labels pre =
     match labels with [] => [] | _ => [VikunjaCli.VGetLabels (host ++ "/api/v1/labels") tok] end /\
   put_label_titles pre =
     List.filter (fun n => match dict_get (lower n) (dict_of (fun l => lower (Vikunja.l_title l)) existing)
                           with Some _ => false | None => true end) labels /\
   forallb (fun e => negb (is_task_put_or_exit e)) pre = true).
Proof.
  intros title description project_id is_favorite host token_arg token_env labels existing cl task_ok.
  split.
  - intros Ta Te. unfold VikunjaCli.create_task. rewrite Ta.
    destruct token_env as [e|]; [| reflexivity]. rewrite Te. reflexivity.
  - intros tok Et Hne. unfold VikunjaCli.create_task. cbv zeta. rewrite Et.
    assert (T : truthy (Some tok) = true).
    { unfold truthy. destruct tok; [contradiction | reflexivity]. }
    rewrite T. destruct labels as [|l0 ls].
    + exists []. split; [reflexivity |]. auto.
    + pose proof (resolve_loop_ev_ids host tok (dict_of (fun l => lower (Vikunja.l_title l)) existing) cl (l0 :: ls)) as Ei.
      destruct (resolve_loop_ev_events host tok (dict_of (fun l => lower (Vikunja.l_title l)) existing) cl (l0 :: ls))
        as [P1 [P2 P3]].
      destruct (VikunjaCli.resolve_loop_ev host tok _ cl (l0 :: ls)) as [evs ids]. cbn [fst snd] in Ei, P1, P2, P3.
      exists (VikunjaCli.VPrint "Resolving labels..." :: VikunjaCli.VGetLabels (host ++ "/api/v1/labels") tok
                :: app evs [VikunjaCli.VPrint "Done."]).
      unfold Vikunja.resolve_labels. rewrite <- Ei. split; [destruct ids; reflexivity |].
      simpl. rewrite List.filter_app, P2. split; [reflexivity |].
      unfold put_label_titles in *. simpl. rewrite flat_map_app, P1. simpl. rewrite app_nil_r.
      split; [reflexivity |]. rewrite forallb_app, P3. reflexivity.
Qed.

Lemma get_headers_exit (env : option string) (f : Hass.fs) c p f' :
  Hass.get_headers env f = Hass.ExitCode c p f' -> c = 1 /\ p = Hass.missing_token_msg.
Proof.
  unfold Hass.get_headers. intros H.
  repeat match type of H with context [match ?x with _ => _ end] => destruct x eqn:? end;
    try discriminate; injection H; auto.
Qed.

Lemma request_events (mk : string -> Hass.event) (env : option string) (f : Hass.fs) :
  (forall s, Hass.is_network (mk s) = true) -> events_ok (fst (Hass.request mk env f)).
Proof.
  intros Hmk. unfold Hass.request. destruct (Hass.get_headers env f) as [tok f'|c p f'] eqn:E.
  - simpl. split; [simpl; rewrite Hmk; simpl; lia |].
    intros c [Hc|[]]. specialize (Hmk ("Bearer " ++ tok)). simpl in Hmk. rewrite Hc in Hmk. discriminate.
  - destruct (get_headers_exit _ _ _ _ _ E) as [-> ->]. split; [simpl; lia |].
    intros c Hin. split; [| reflexivity].
    simpl in Hin. repeat destruct Hin as [Hin|Hin]; try discriminate; [injection Hin; auto | contradiction].
Qed.

Lemma events_ok_print (s : string) (evs : list Hass.event) :
  events_ok evs -> events_ok (Hass.Print s :: evs).
Proof.
  intros [H1 H2]. split; [exact H1 |].
  intros c [Hc|Hin]; [discriminate |]. exact (H2 c Hin).
Qed.

Lemma events_ok_fixed (ps : list string) (c : Z) :
  c = 1 -> events_ok (app (map Hass.Print ps) [Hass.Exit c]).
Proof.
  intros ->. induction ps as [|p ps IH]; simpl.
  - split; [simpl; lia |]. intros c [Hc|[]]. injection Hc as <-. auto.
  - apply events_ok_print. exact IH.
Qed.

(** hass_api_manager.py's command dispatch makes at most one HTTP
    request; whenever it exits (missing arguments, invalid JSON for
    [call], or no token) the status is 1 and no request was made; an
    unknown command only prints [Unknown command: ...], without a request
    and without exiting, so the script ends with status 0. *)
Theorem hass_cli_dispatch :
  forall hass_url args json_ok env f,
  events_ok (fst (HassCli.main hass_url args json_ok env f)) /\
  (forall command rest, args = command :: rest ->
   ~ In command ["status"; "states"; "state"; "on"; "off"; "call"; "dump"] ->
   HassCli.main hass_url args json_ok env f = ([Hass.Print ("Unknown command: " ++ command)], f)).
Proof.
  intros hass_url args json_ok env f. split.
  - unfold HassCli.main. destruct args as [|command rest].
    + apply events_ok_fixed. reflexivity.
    + repeat match goal with |- context [if String.eqb command ?k then _ else _] =>
               destruct (String.eqb command k) end.
      all: unfold HassCli.get_all_states, Hass.check_api_status, Hass.get_state, Hass.call_service.
      all: try (destruct rest as [|x [|y [|z r]]]); try destruct (json_ok _).
      all: repeat match goal with |- context [let '(_, _) := ?p in _] => destruct p as [evs f'] eqn:Ep end.
      all: simpl fst.
      all: first [ apply events_ok_fixed; reflexivity
                 | apply request_events; intros; reflexivity
                 | apply events_ok_print;
                   match goal with Ep : Hass.request ?mk ?e ?g = (?evs, _) |- events_ok ?evs =>
                     pose proof (request_events mk e g (fun _ => eq_refl)) as R; rewrite Ep in R; exact R end
                 | split; [simpl; lia |];
                   intros c Hin; simpl in Hin; repeat destruct Hin as [Hin|Hin]; try discriminate;
                   try contradiction; injection Hin as <-; split; reflexivity ].
  - intros command rest -> Hn. unfold HassCli.main.
    repeat match goal with |- context [if String.eqb command ?k then _ else _] =>
             let E := fresh in destruct (String.eqb_spec command k) as [E|E];
             [exfalso; apply Hn; rewrite E; simpl; tauto |] end.
    reflexivity.
Qed.

(** A token [get_headers] takes from the vault (no usable [HASS_TOKEN],
    no usable cache, cache writable) is written to
    [tmp/hass_token.txt] with mode 0o600; a later run then gets it from
    the cache, stripped of surrounding whitespace, whatever the vault
    gives by then. *)
Theorem hass_vault_token_cached :
  forall env f tok f',
  truthy env = false -> truthy (Hass.get_token_from_tmp f) = false -> Hass.tmp_writable f = true ->
  Hass.get_headers env f = Hass.Headers tok f' -> strip tok <> EmptyString ->
  Hass.tmp_token_file f' = Some (tok, Hass.owner_rw) /\
  forall v,
  Hass.get_headers None {| Hass.tmp_token_file := Hass.tmp_token_file f'; Hass.vault_view := v;
                           Hass.tmp_writable := Hass.tmp_writable f' |} =
    Hass.Headers (strip tok) {| Hass.tmp_token_file := Hass.tmp_token_file f'; Hass.vault_view := v;
                                Hass.tmp_writable := Hass.tmp_writable f' |}.
Proof.
  intros env f tok f' He Ht Hw H Hs. unfold Hass.get_headers in H. rewrite He in H.
  rewrite Ht in H. destruct (Hass.get_token_from_vault f) as [tv|] eqn:Ev; [| discriminate].
  destruct (truthy (Some tv)) eqn:Tv; [| cbn [andb] in H; rewrite Tv in H; discriminate].
  rewrite Hw in H. cbn [andb] in H. rewrite Tv in H. injection H as <- <-. simpl. split; [reflexivity |].
  intros v. unfold Hass.get_headers, Hass.get_token_from_tmp. simpl.
  assert (T : truthy (Some (strip tv)) = true).
  { unfold truthy. apply negb_true_iff, String.eqb_neq. exact Hs. }
  unfold truthy in T. rewrite T. simpl. rewrite T. reflexivity.
Qed.

(** * Witnesses of the further properties *)

Lemma allow_list_other_addresses_untouched_witness :
  let e := {| e_comment := None; e_groups := [0]; e_enabled := true |} in
  let its := [{| address := "a"; state := Present; comment := None; groups := []; enabled := true |}] in
  ~ In "z" (map address its) /\
  remote (run_module false false EmptyString [] (<["z" := e]> ∅) its) !! "z" = Some e.
Proof.
  cbv zeta.
  assert (Hn : ~ In "z" (map address
                 [{| address := "a"; state := Present; comment := None; groups := []; enabled := true |}]))
    by (intros [H|[]]; discriminate).
  split; [exact Hn |]. exact (allow_list_other_addresses_untouched false false EmptyString [] _ _ _ Hn).
Defined.

Lemma allow_list_absent_wins_witness :
  let e := {| e_comment := None; e_groups := [0]; e_enabled := true |} in
  let it := {| address := "a"; state := Absent; comment := None; groups := []; enabled := true |} in
  In it [it] /\ state it = Absent /\ is_Some ((<["a" := e]> ∅ : gmap string entry) !! address it) /\
  remote (run_module false false EmptyString [] (<["a" := e]> ∅) [it]) !! "a" = None.
Proof.
  cbv zeta.
  assert (Hi : In {| address := "a"; state := Absent; comment := None; groups := []; enabled := true |}
                 [{| address := "a"; state := Absent; comment := None; groups := []; enabled := true |}])
    by (left; reflexivity).
  assert (Hs : state {| address := "a"; state := Absent; comment := None; groups := []; enabled := true |} = Absent)
    by reflexivity.
  assert (Hr : is_Some ((<["a" := {| e_comment := None; e_groups := [0]; e_enabled := true |}]> ∅
                          : gmap string entry) !! "a")) by (eexists; reflexivity).
  split; [exact Hi |]. split; [exact Hs |]. split; [exact Hr |].
  exact (allow_list_absent_wins false EmptyString [] _ _ _ Hi Hs Hr).
Defined.

Lemma clients_check_mode_dry_run_witness :
  let cit := {| Clients.name := "a"; Clients.cstate := Present; Clients.ccomment := None; Clients.cgroups := [] |} in
  let acc := {| Clients.cremote := <["a" := {| Clients.ce_comment := None; Clients.ce_groups := [] |}]> ∅;
                Clients.cresults := [{| Clients.r_name := "a"; Clients.r_state := Clients.Created |}];
                Clients.cchanged := true; Clients.cwarnings := [];
                Clients.ccalls := [Clients.AddClient "a" None []] |} in
  Clients.main false [] ∅ [cit] = Clients.COk acc /\
  exists acc', Clients.main true [] ∅ [cit] = Clients.COk acc' /\ Clients.cremote acc' = ∅ /\
    Clients.ccalls acc' = [] /\ Clients.cresults acc' = Clients.cresults acc /\
    Clients.cchanged acc' = true.
Proof.
  cbv zeta.
  assert (Hm : Clients.main false [] ∅
                 [{| Clients.name := "a"; Clients.cstate := Present; Clients.ccomment := None; Clients.cgroups := [] |}]
               = Clients.COk {| Clients.cremote := <["a" := {| Clients.ce_comment := None; Clients.ce_groups := [] |}]> ∅;
                Clients.cresults := [{| Clients.r_name := "a"; Clients.r_state := Clients.Created |}];
                Clients.cchanged := true; Clients.cwarnings := [];
                Clients.ccalls := [Clients.AddClient "a" None []] |}) by (vm_compute; reflexivity).
  split; [exact Hm |].
  destruct (clients_check_mode_dry_run [] ∅
              [{| Clients.name := "a"; Clients.cstate := Present; Clients.ccomment := None; Clients.cgroups := [] |}])
    as [acc' [H1 [H2 [H3 H4]]]].
  destruct (H4 _ Hm) as [R [C _]].
  exists acc'. split; [exact H1 |]. split; [exact H2 |]. split; [exact H3 |].
  split; [symmetry; exact R | rewrite <- C; reflexivity].
Defined.

Lemma clients_touch_only_listed_witness :
  let ce := {| Clients.ce_comment := None; Clients.ce_groups := [] |} in
  let r := <["z" := ce]> (<["b" := ce]> ∅) in
  let cab := {| Clients.name := "b"; Clients.cstate := Absent; Clients.ccomment := None; Clients.cgroups := [] |} in
  exists acc, Clients.main false [] r [cab] = Clients.COk acc /\
    ~ In "z" (map Clients.name [cab]) /\ In cab [cab] /\ Clients.cstate cab = Absent /\
    is_Some (r !! Clients.name cab) /\
    Clients.cremote acc !! "z" = Some ce /\ Clients.cremote acc !! "b" = None.
Proof.
  cbv zeta.
  destruct (Clients.main false []
              (<["z" := {| Clients.ce_comment := None; Clients.ce_groups := [] |}]>
                 (<["b" := {| Clients.ce_comment := None; Clients.ce_groups := [] |}]> ∅))
              [{| Clients.name := "b"; Clients.cstate := Absent; Clients.ccomment := None; Clients.cgroups := [] |}])
    as [m a|acc] eqn:Hm; [vm_compute in Hm; discriminate |].
  assert (Hn : ~ In "z" (map Clients.name
                 [{| Clients.name := "b"; Clients.cstate := Absent; Clients.ccomment := None; Clients.cgroups := [] |}]))
    by (intros [H|[]]; discriminate).
  assert (Hi : In {| Clients.name := "b"; Clients.cstate := Absent; Clients.ccomment := None; Clients.cgroups := [] |}
                 [{| Clients.name := "b"; Clients.cstate := Absent; Clients.ccomment := None; Clients.cgroups := [] |}])
    by (left; reflexivity).
  assert (Hs : Clients.cstate {| Clients.name := "b"; Clients.cstate := Absent; Clients.ccomment := None;
                                 Clients.cgroups := [] |} = Absent) by reflexivity.
  assert (Hr : is_Some ((<["z" := {| Clients.ce_comment := None; Clients.ce_groups := [] |}]>
                 (<["b" := {| Clients.ce_comment := None; Clients.ce_groups := [] |}]> ∅)
                 : gmap string Clients.centry) !! "b")) by (eexists; reflexivity).
  destruct (clients_touch_only_listed _ _ _ _ Hm) as [T1 T2].
  exists acc. split; [reflexivity |]. split; [exact Hn |]. split; [exact Hi |]. split; [exact Hs |].
  split; [exact Hr |]. split; [exact (T1 "z" Hn) | exact (T2 _ Hi Hs Hr)].
Defined.

Lemma trac_password_lookup_witness :
  TracAuth.get_trac_password (Some "env") None = Some "env" /\
  TracAuth.get_trac_password None
    (Some ["alias ll=ls"; TracAuth.export_key ++ String (ascii_of_nat 34) ("s3cret" ++
             String (ascii_of_nat 34) (String "010" EmptyString)); "export OTHER=1"])
    = Some "s3cret".
Proof.
  split; [exact (proj1 trac_password_lookup (Some "env") None eq_refl) |].
  apply (proj2 trac_password_lookup None ["alias ll=ls"] ["export OTHER=1"] "s3cret").
  - reflexivity.
  - repeat constructor.
  - intros c s H. injection H as <- _. split; discriminate.
  - intros c s H. vm_compute in H. injection H as <- _. split; discriminate.
Defined.

Lemma trac_proxy_url_witness :
  TracAuth.get_proxy "admin" (Some "p@ss word") =
    Some ("http://" ++ "admin" ++ ":" ++ TracAuth.quote "p@ss word" ++ "@" ++ "trac.home.arpa/login/xmlrpc") /\
  (TracAuth.quote "p@ss word" = TracAuth.quote "p@ss word" -> "p@ss word" = "p@ss word").
Proof.
  destruct (trac_proxy_url "admin" "p@ss word") as [_ [_ [H3 [_ H5]]]].
  split; [exact (H3 ltac:(discriminate)) | exact (H5 "p@ss word")].
Defined.

Lemma trac_cli_connect_message_witness :
  TracAuth.connect_msg (TracAuth.cli_trac_url "admin" "pw" "trac.home.arpa" "/login/xmlrpc") =
    Some ("Connecting to Trac server at " ++ "trac.home.arpa" ++ "/login/xmlrpc" ++ "...") /\
  TracAuth.connect_msg (TracAuth.cli_trac_url "admin" ("pw" ++ "@" ++ "x") "trac.home.arpa" "/login/xmlrpc") =
    Some ("Connecting to Trac server at " ++ "x" ++ "...").
Proof.
  apply (trac_cli_connect_message "admin" "pw" "x" "trac.home.arpa" "/login/xmlrpc").
  repeat constructor.
Defined.

Lemma trac_update_ticket_outcomes_witness :
  let t := {| Trac.valid_components := ["SysAdmin"]; Trac.valid_priorities := ["major"];
              Trac.created_id := "1" |} in
  let fault := fun c => if Trac.is_mutation c then Some "<Fault 404: 'Ticket 999 does not exist.'>" else None in
  TracAuth.update_ticket_tool "will" None fault t 999 "c" (Some "SysAdmin") None None None "me" None None =
    ("Error updating ticket #" ++ z_to_str 999 ++ ": " ++ "TRAC_PASSWORD is not set", []) /\
  TracAuth.update_ticket_tool "will" (Some "pw") (fun _ => None) t 999 "c" (Some "SysAdmin") None None None "me"
      None None =
    Trac.update_ticket t 999 "c" (Some "SysAdmin") None None None "me" None None /\
  TracAuth.update_ticket_tool "will" (Some "pw") fault t 999 "c" (Some "SysAdmin") None None None "me" None None =
    ("Error updating ticket #" ++ z_to_str 999 ++ ": " ++ "<Fault 404: 'Ticket 999 does not exist.'>",
     snd (Trac.update_ticket t 999 "c" (Some "SysAdmin") None None None "me" None None)).
Proof.
  cbv zeta.
  destruct (trac_update_ticket_outcomes "will" None
              (fun c => if Trac.is_mutation c then Some "<Fault 404: 'Ticket 999 does not exist.'>" else None)
              {| Trac.valid_components := ["SysAdmin"]; Trac.valid_priorities := ["major"];
                 Trac.created_id := "1" |} 999 "c" (Some "SysAdmin") None None None "me" None None)
    as [T1 _].
  destruct (trac_update_ticket_outcomes "will" (Some "pw") (fun _ => None)
              {| Trac.valid_components := ["SysAdmin"]; Trac.valid_priorities := ["major"];
                 Trac.created_id := "1" |} 999 "c" (Some "SysAdmin") None None None "me" None None)
    as [_ [T2 _]].
  destruct (trac_update_ticket_outcomes "will" (Some "pw")
              (fun c => if Trac.is_mutation c then Some "<Fault 404: 'Ticket 999 does not exist.'>" else None)
              {| Trac.valid_components := ["SysAdmin"]; Trac.valid_priorities := ["major"];
                 Trac.created_id := "1" |} 999 "c" (Some "SysAdmin") None None None "me" None None)
    as [_ [_ [T3 _]]].
  split; [exact (T1 eq_refl) |]. split; [exact (T2 eq_refl (fun _ _ => eq_refl)) |].
  exact (T3 eq_refl _ (fun _ _ => eq_refl) eq_refl).
Defined.

Lemma trac_update_ticket_resolution_witness :
  let t := {| Trac.valid_components := ["SysAdmin"]; Trac.valid_priorities := ["major"];
              Trac.created_id := "1" |} in
  exists attrs,
  List.last (snd (Trac.update_ticket t 7 "done" None None (Some "closed") None "me" None None))
    Trac.PriorityGetAll = Trac.TicketUpdate 7 "done" attrs true "me" /\
  dict_get "resolution" attrs = Some "fixed" /\ dict_get "action_resolve_resolve_as" attrs = None.
Proof.
  exact (trac_update_ticket_resolution
           {| Trac.valid_components := ["SysAdmin"]; Trac.valid_priorities := ["major"];
              Trac.created_id := "1" |} 7 "done" None None (Some "closed") None "me" None None eq_refl).
Defined.

Lemma vikunja_create_task_requests_witness :
  let existing := [{| Vikunja.l_title := "Urgent"; Vikunja.l_id := 3 |}] in
  let cl := fun n : string => Some {| Vikunja.l_title := n; Vikunja.l_id := 9 |} in
  VikunjaCli.create_task "t" "d" 2 false "http://v" None None ["x"] existing cl true =
    [VikunjaCli.VPrint VikunjaCli.missing_token_msg; VikunjaCli.VExit 1] /\
  exists pre,
  VikunjaCli.create_task "t" "d" 2 false "http://v" (Some "tok") None ["urgent"; "home"] existing cl true =
    app pre [VikunjaCli.VPutTask ("http://v" ++ "/api/v1/projects/" ++ z_to_str 2 ++ "/tasks") "tok" "t" "d" false
               (match Vikunja.resolve_labels existing cl ["urgent"; "home"] with [] => None | r => Some r end)] /\
  List.filter is_get_labels pre = [VikunjaCli.VGetLabels ("http://v" ++ "/api/v1/labels") "tok"] /\
  put_label_titles pre = ["home"] /\
  forallb (fun e => negb (is_task_put_or_exit e)) pre = true.
Proof.
  cbv zeta.
  destruct (vikunja_create_task_requests "t" "d" 2 false "http://v" None None ["x"]
              [{| Vikunja.l_title := "Urgent"; Vikunja.l_id := 3 |}]
              (fun n : string => Some {| Vikunja.l_title := n; Vikunja.l_id := 9 |}) true) as [T1 _].
  split; [exact (T1 eq_refl eq_refl) |].
  destruct (vikunja_create_task_requests "t" "d" 2 false "http://v" (Some "tok") None ["urgent"; "home"]
              [{| Vikunja.l_title := "Urgent"; Vikunja.l_id := 3 |}]
              (fun n : string => Some {| Vikunja.l_title := n; Vikunja.l_id := 9 |}) true) as [_ T2].
  destruct (T2 "tok" eq_refl ltac:(discriminate)) as [pre [E [F [P N]]]].
  exists pre. split; [exact E |]. split; [exact F |]. split; [exact P | exact N].
Defined.

Lemma hass_cli_dispatch_witness :
  let f := {| Hass.tmp_token_file := None; Hass.vault_view := None; Hass.tmp_writable := true |} in
  events_ok (fst (HassCli.main "http://hass" ["on"; "light.kitchen"] (fun _ => true) (Some "tok") f)) /\
  HassCli.main "http://hass" ["toggle"; "light.kitchen"] (fun _ => true) (Some "tok") f =
    ([Hass.Print ("Unknown command: " ++ "toggle")], f).
Proof.
  cbv zeta.
  split; [exact (proj1 (hass_cli_dispatch "http://hass" ["on"; "light.kitchen"] (fun _ => true) (Some "tok")
                         {| Hass.tmp_token_file := None; Hass.vault_view := None; Hass.tmp_writable := true |})) |].
  apply (proj2 (hass_cli_dispatch "http://hass" ["toggle"; "light.kitchen"] (fun _ => true) (Some "tok")
                  {| Hass.tmp_token_file := None; Hass.vault_view := None; Hass.tmp_writable := true |})
           "toggle" ["light.kitchen"] eq_refl).
  intros H. simpl in H. repeat destruct H as [H|H]; try discriminate. exact H.
Defined.

Lemma hass_vault_token_cached_witness :
  let f := {| Hass.tmp_token_file := None; Hass.vault_view := Some ["hass_gemini_api_key: 'abc'"];
              Hass.tmp_writable := true |} in
  let f' := {| Hass.tmp_token_file := Some ("abc", Hass.owner_rw);
               Hass.vault_view := Some ["hass_gemini_api_key: 'abc'"]; Hass.tmp_writable := true |} in
  Hass.get_headers None f = Hass.Headers "abc" f' /\
  Hass.tmp_token_file f' = Some ("abc", Hass.owner_rw) /\
  Hass.get_headers None {| Hass.tmp_token_file := Hass.tmp_token_file f'; Hass.vault_view := None;
                           Hass.tmp_writable := Hass.tmp_writable f' |} =
    Hass.Headers (strip "abc") {| Hass.tmp_token_file := Hass.tmp_token_file f'; Hass.vault_view := None;
                                  Hass.tmp_writable := Hass.tmp_writable f' |}.
Proof.
  cbv zeta.
  assert (Hg : Hass.get_headers None
                 {| Hass.tmp_token_file := None; Hass.vault_view := Some ["hass_gemini_api_key: 'abc'"];
                    Hass.tmp_writable := true |} =
               Hass.Headers "abc" {| Hass.tmp_token_file := Some ("abc", Hass.owner_rw);
                 Hass.vault_view := Some ["hass_gemini_api_key: 'abc'"]; Hass.tmp_writable := true |})
    by (vm_compute; reflexivity).
  destruct (hass_vault_token_cached None
              {| Hass.tmp_token_file := None; Hass.vault_view := Some ["hass_gemini_api_key: 'abc'"];
                 Hass.tmp_writable := true |} _ _ eq_refl eq_refl eq_refl Hg ltac:(vm_compute; discriminate))
    as [A B].
  split; [exact Hg |]. split; [exact A | exact (B None)].
Defined.
